(** * pkgstats: the incremental search-and-cache pipeline of [main.go]

    A shallow embedding of [run], [searchResult.Search] and
    [searchResult.searchInRepositories], with the properties of the
    cache store, the manifest inspection, the page scanner and the
    paginated search controller.

    Go's [int] is the 64-bit signed integer and is modelled as [Z]; the
    only place where its range matters is [strconv.Atoi].  Go maps are
    [gmap]s; Go strings are [string]s (sequences of bytes). *)

From Stdlib Require Import ZArith String Ascii List Bool Lia.
From Stdlib Require Import Sorting.Sorted Sorting.Permutation.
From Stdlib Require Import Numbers.DecimalString Numbers.DecimalPos.
From stdpp Require Import base gmap strings list fin_maps.

Local Open Scope string_scope.
Local Open Scope list_scope.
Local Open Scope Z_scope.

(** ** Data model *)

(** [type repoResult struct { name string; used bool; stars int }] *)
Record repoResult := mkRepoResult {
  name : string;
  used : bool;
  stars : Z
}.

(** The fields of [github.Repository] that the program reads, each one as
    its [Get...] accessor returns it. *)
Record Repository := mkRepository {
  FullName : string;
  OwnerLogin : string;
  RepoName : string;
  Archived : bool;
  Disabled : bool;
  Fork : bool;
  StargazersCount : Z
}.

(** [github.CodeResult]: one file found by the code search. *)
Record CodeResult := mkCodeResult {
  Path : string;
  HTMLURL : string
}.

(** [modfile.Require]: one entry of a [require] directive. *)
Record Require_ := mkRequire {
  ModPath : string;
  ModVersion : string;
  Indirect : bool
}.

(** [modfile.File], reduced to its [Require] list. *)
Record File := mkFile {
  Requires : list Require_
}.

(** The [io.ReadCloser] handed back by [DownloadContents]: what
    [io.ReadAll] yields on it ([None] for a read error) and whether
    [Close] succeeds. *)
Record Reader := mkReader {
  contents : option string;
  close_ok : bool
}.

(** [ctx.Err()] of a context that is done. *)
Inductive ctx_error := Canceled | DeadlineExceeded.

Inductive error :=
| ErrInvalidStarCount                 (* "invalid value for star count: ..." *)
| ErrSearchRepositories               (* "error searching repositories: ..." *)
| ErrContext (e : ctx_error)          (* ctx.Err() returned as it is *)
| ErrSearching (e : error).           (* "error searching: ..." *)

(** The result of a piece of code that may return an error or panic (an
    index out of range at run time). *)
Inductive outcome (A : Type) :=
| Ok (a : A)
| Err (e : error)
| Panic.
Arguments Ok {A} a.
Arguments Err {A} e.
Arguments Panic {A}.

#[global] Instance ctx_error_eq_dec : EqDecision ctx_error.
Proof. solve_decision. Defined.

(** ** strconv.Atoi and strconv.Itoa *)

Definition is_digit (c : ascii) : bool :=
  (48 <=? nat_of_ascii c)%nat && (nat_of_ascii c <=? 57)%nat.

Definition digit_val (c : ascii) : Z := Z.of_nat (nat_of_ascii c) - 48.

(** The digit loop of [Atoi]: [n = n*10 + int(ch)], a syntax error on
    the first byte that is not a decimal digit. *)
Fixpoint parse_digits (s : string) (n : Z) : option Z :=
  match s with
  | EmptyString => Some n
  | String c s' =>
      if is_digit c then parse_digits s' (n * 10 + digit_val c) else None
  end.

Definition int_min : Z := - 2 ^ 63.
Definition int_max : Z := 2 ^ 63 - 1.

Definition in_int_range (v : Z) : bool := (int_min <=? v) && (v <=? int_max).

(** [strconv.Atoi] of the Go standard library, which is
    [ParseInt(s, 10, 0)]: an optional sign, then one or more decimal
    digits; a value outside the range of [int] is a range error.  Both
    kinds of error are [None]. *)
Definition Atoi (s : string) : option Z :=
  match s with
  | EmptyString => None
  | String c rest =>
      let neg := Ascii.eqb c "-" in
      let ds := if neg || Ascii.eqb c "+" then rest else s in
      match ds with
      | EmptyString => None
      | _ =>
          match parse_digits ds 0 with
          | None => None
          | Some n =>
              let v := if neg then - n else n in
              if in_int_range v then Some v else None
          end
      end
  end.

(** [strconv.Itoa]: the decimal form, with a leading minus sign for a
    negative number. *)
Definition Itoa (z : Z) : string := NilZero.string_of_int (Z.to_int z).

(** ** Cache store: loading *)

(** Lines 93-105 of [run]: the rows read by [csv.Reader.ReadAll] are
    turned into the cache mapping.  [record[2]] on a row with fewer than
    three fields is an index out of range. *)
Fixpoint load (records : list (list string)) (results : gmap string repoResult)
  : outcome (gmap string repoResult) :=
  match records with
  | [] => Ok results
  | record :: rest =>
      match record !! 2%nat with
      | None => Panic
      | Some f2 =>
          match Atoi f2 with
          | None => Err ErrInvalidStarCount
          | Some n =>
              match record !! 0%nat, record !! 1%nat with
              | Some f0, Some f1 =>
                  load rest
                    (<[f0 := {| name := f0; used := String.eqb f1 "true"; stars := n |}]>
                       results)
              | _, _ => Panic
              end
          end
      end
  end.

(** What [csv.Reader] accepts with its default [FieldsPerRecord = 0]:
    every record has the field count of the first one, and a record has
    at least one field. *)
Definition csv_accepted (records : list (list string)) : Prop :=
  match records with
  | [] => True
  | r0 :: _ =>
      (0 < length r0)%nat ∧ Forall (λ r, length r = length r0) records
  end.

(** ** The outside world

    The program talks to the GitHub API, parses manifests, sleeps, and
    polls its context.  The world is deterministic once it is fixed what
    each call answers at each moment.  A logical clock counts the
    interactions of the program with the world (API calls, sleeps, polls
    of the context); the answers are functions of the clock and of the
    arguments.  A context ends once and stays ended with the same error,
    the way Go's [context] package guarantees. *)

Record Env := mkEnv {
  (** when the context is cancelled or expires, and [ctx.Err()] from then on *)
  ctx_end : option (nat * ctx_error);
  (** [client.Search.Repositories(ctx, query, opts)] with [opts.Page = page]:
      the repositories of the page and [resp.NextPage], or an error *)
  Search_Repositories : nat → string → Z → option (list Repository * Z);
  (** [client.Search.Code(ctx, query, opts)]: [files.CodeResults], or an error *)
  Search_Code : nat → string → option (list CodeResult);
  (** [client.Repositories.DownloadContents(ctx, owner, repo, path, nil)] *)
  DownloadContents : nat → string → string → string → option Reader;
  (** [modfile.Parse("go.mod", bb, nil)] *)
  modfile_Parse : string → option File
}.

(** The calls the program makes, in the order it makes them. *)
Inductive Event :=
| EvSearchRepositories (query : string) (page : Z)
| EvSearchCode (repo : string) (query : string)
| EvDownloadContents (repo : string) (path : string)
| EvParse (repo : string) (path : string) (res : option File)
| EvSleep (d : Z)
| EvLogScanError (e : error).

Record State := mkState {
  clock : nat;
  trace : list Event
}.

Definition M (A : Type) : Type := State → A * State.

Definition ret {A} (a : A) : M A := λ st, (a, st).

Definition bind {A B} (c : M A) (k : A → M B) : M B :=
  λ st, let (a, st') := c st in k a st'.

Notation "x <- c ;; k" := (bind c (λ x, k))
  (at level 200, c at level 99, right associativity).
Notation "c ;;; k" := (bind c (λ _, k))
  (at level 200, right associativity).

(** One interaction with the world: the clock advances. *)
Definition tick (st : State) : State :=
  {| clock := S (clock st); trace := trace st |}.

Definition emit (e : Event) : M unit :=
  λ st, (tt, {| clock := clock st; trace := trace st ++ [e] |}).

(** [ctx.Err()] at a moment: [None] while [ctx.Done()] is still open. *)
Definition ctx_Err (env : Env) (t : nat) : option ctx_error :=
  match ctx_end env with
  | Some (t0, e) => if (t0 <=? t)%nat then Some e else None
  | None => None
  end.

(** [type searchResult struct]; the client is the world. *)
Record searchResult := mkSearchResult {
  cache : gmap string repoResult;
  packageName : string;
  paginationDelay : Z;
  searchDelay : Z
}.

Definition second : Z := 1000000000.

(** [newSearchResult]: the cache is the caller's map itself (the same
    object as [results] of [run], which [run] does not write to before
    [Search] has returned). *)
Definition newSearchResult (packageName : string)
    (results : gmap string repoResult) : searchResult :=
  {| cache := results;
     packageName := packageName;
     paginationDelay := 7 * second;
     searchDelay := 7 * second |}.

Section Pipeline.

Variable env : Env.
Variable s : searchResult.

(** [select { case <-ctx.Done(): ... default: ... }]: the [default]
    branch runs only when the context is not done. *)
Definition poll : M (option ctx_error) :=
  λ st, (ctx_Err env (clock st), tick st).

Definition call_Search_Repositories (query : string) (page : Z)
  : M (option (list Repository * Z)) :=
  emit (EvSearchRepositories query page) ;;;
  λ st, (Search_Repositories env (clock st) query page, tick st).

Definition call_Search_Code (repo : string) (query : string)
  : M (option (list CodeResult)) :=
  emit (EvSearchCode repo query) ;;;
  λ st, (Search_Code env (clock st) query, tick st).

Definition call_DownloadContents (repo : Repository) (path : string)
  : M (option Reader) :=
  emit (EvDownloadContents (FullName repo) path) ;;;
  λ st, (DownloadContents env (clock st) (OwnerLogin repo) (RepoName repo) path,
         tick st).

Definition call_modfile_Parse (repo : Repository) (path : string) (bb : string)
  : M (option File) :=
  let r := modfile_Parse env bb in
  emit (EvParse (FullName repo) path r) ;;; ret r.

(** [sleepWithContext]: returns [nil] when the timer fires and
    [ctx.Err()] when the context ends first. *)
Definition sleepWithContext (d : Z) : M (option ctx_error) :=
  emit (EvSleep d) ;;;
  λ st, (ctx_Err env (S (clock st)), tick st).

(** Lines 350-357: the loop over [f.Require]; [break] on the first
    entry for the package that is not indirect. *)
Fixpoint scan_requires (reqs : list Require_) (used0 : bool) : bool :=
  match reqs with
  | [] => used0
  | require :: rest =>
      if String.eqb (ModPath require) (packageName s) && negb (Indirect require)
      then true
      else scan_requires rest used0
  end.

(** Lines 321-359: the loop over [files.CodeResults]; [used0] is
    [repoSearchResult.used] on entry. *)
Fixpoint scan_files (repo : Repository) (files : list CodeResult) (used0 : bool)
  : M bool :=
  match files with
  | [] => ret used0
  | file :: rest =>
      d <- call_DownloadContents repo (Path file) ;;
      match d with
      | None => scan_files repo rest used0
      | Some reader =>
          match contents reader with
          | None => scan_files repo rest used0
          | Some bb =>
              if negb (close_ok reader) then scan_files repo rest used0
              else
                p <- call_modfile_Parse repo (Path file) bb ;;
                match p with
                | None => scan_files repo rest used0
                | Some f => scan_files repo rest (scan_requires (Requires f) used0)
                end
          end
      end
  end.

Definition code_query (repo : Repository) : string :=
  (packageName s ++ " repo:" ++ FullName repo ++ " filename:go.mod")%string.

(** Lines 297-365, the inspection of one repository that is neither
    filtered out nor cached: [None] when the code search fails (the
    [continue] of line 309), otherwise the [repoResult] that line 365
    stores. *)
Definition scan_repository (repo : Repository) : M (option repoResult) :=
  r <- call_Search_Code (FullName repo) (code_query repo) ;;
  match r with
  | None => ret None
  | Some files =>
      u <- scan_files repo files false ;;
      ret (Some {| name := FullName repo;
                   used := u;
                   stars := StargazersCount repo |})
  end.

(** [searchInRepositories]: [results] is the map built so far. *)
Fixpoint searchInRepositories_from (repos : list Repository)
    (results : gmap string repoResult)
  : M (gmap string repoResult * option error) :=
  match repos with
  | [] => ret (results, None)
  | repo :: rest =>
      c <- poll ;;
      match c with
      | Some Canceled => ret (results, None)
      | Some e => ret (results, Some (ErrContext e))
      | None =>
          if Archived repo || Disabled repo || Fork repo
          then searchInRepositories_from rest results
          else
            match cache s !! FullName repo with
            | Some _ => searchInRepositories_from rest results
            | None =>
                o <- scan_repository repo ;;
                match o with
                | None => searchInRepositories_from rest results
                | Some repoSearchResult =>
                    sleepWithContext (searchDelay s) ;;;
                    searchInRepositories_from rest
                      (<[FullName repo := repoSearchResult]> results)
                end
            end
      end
  end.

Definition searchInRepositories (repos : list Repository)
  : M (gmap string repoResult * option error) :=
  searchInRepositories_from repos ∅.

(** Lines 240-242: [for repo, found := range m { results[repo] = found }]
    over the entries of [m] in the order the runtime enumerates them. *)
Definition range_update (entries : list (string * repoResult))
    (results : gmap string repoResult) : gmap string repoResult :=
  foldl (λ acc kv, <[kv.1 := kv.2]> acc) results entries.

(** [Search]: one unit of fuel per iteration of [for { ... }].  [page] is
    [opts.Page].  [None] when the fuel runs out before a [return].  The
    [break] of line 245 leaves the [select] statement, not the loop: the
    next iteration starts with [opts.Page] as it was. *)
Fixpoint Search (fuel : nat) (query : string) (page : Z)
    (results : gmap string repoResult)
  : M (option (gmap string repoResult * option error)) :=
  match fuel with
  | O => ret None
  | S fuel' =>
      c <- poll ;;
      match c with
      | Some Canceled => ret (Some (results, None))
      | Some e => ret (Some (results, Some (ErrContext e)))
      | None =>
          r <- call_Search_Repositories query page ;;
          match r with
          | None => ret (Some (results, Some ErrSearchRepositories))
          | Some (repos, NextPage) =>
              sr <- searchInRepositories repos ;;
              match sr with
              | (_, Some err) =>
                  emit (EvLogScanError err) ;;;
                  Search fuel' query page results
              | (repoSearchResults, None) =>
                  let results' :=
                    range_update (map_to_list repoSearchResults) results in
                  if NextPage =? 0
                  then Search fuel' query page results'
                  else
                    sleepWithContext (paginationDelay s) ;;;
                    Search fuel' query NextPage results'
              end
          end
      end
  end.

End Pipeline.

(** ** The top level: merge, sort, persist *)

(** Go enumerates the entries of a map in an order that it does not
    specify; each entry comes exactly once. *)
Definition ranges_over (m : gmap string repoResult)
    (entries : list (string * repoResult)) : Prop :=
  entries ≡ₚ map_to_list m.

(** Lines 136-140 of [run]:
    [for repo, r := range newResults { if _, ok := results[repo]; !ok { results[repo] = r } }] *)
Definition range_merge (entries : list (string * repoResult))
    (results : gmap string repoResult) : gmap string repoResult :=
  foldl (λ acc kv, match acc !! kv.1 with
                   | Some _ => acc
                   | None => <[kv.1 := kv.2]> acc
                   end) results entries.

(** The pages of one [Search], merged one after the other into the
    accumulated results (lines 240-242, once per page). *)
Definition merge_pages (pages : list (gmap string repoResult))
    (results : gmap string repoResult) : gmap string repoResult :=
  foldl (λ acc page, range_update (map_to_list page) acc) results pages.

(** [lo.MapToSlice(results, func(k, v) { return v })]: the values, in the
    order of the enumeration. *)
Definition MapToSlice (entries : list (string * repoResult)) : list repoResult :=
  map snd entries.

(** The comparison handed to [sort.Slice]: [less(i, j)] is
    [stars(i) > stars(j)]. *)
Definition less (a b : repoResult) : bool := stars b <? stars a.

(** What [sort.Slice] promises: the elements are rearranged so that no
    element is [less] than one before it.  It does not promise to keep
    the order of elements that compare equal. *)
Definition sort_Slice (l l' : list repoResult) : Prop :=
  l ≡ₚ l' ∧ Sorted (λ a b, less b a = false) l'.

(** One way to meet that promise: the insertion sort. *)
Fixpoint insert_by_stars (x : repoResult) (l : list repoResult) : list repoResult :=
  match l with
  | [] => [x]
  | y :: l' => if less y x then y :: insert_by_stars x l' else x :: l
  end.

Fixpoint insertion_sort (l : list repoResult) : list repoResult :=
  match l with
  | [] => []
  | x :: l' => insert_by_stars x (insertion_sort l')
  end.

(** Lines 167-172: the record written for one result. *)
Definition csv_row (r : repoResult) : list string :=
  [name r; if used r then "true" else "false"; Itoa (stars r)].

(** Lines 143-176: the rows [run] writes for the merged mapping: some
    enumeration of the map, sorted by [sort.Slice], one record each. *)
Definition persisted (results : gmap string repoResult)
    (rows : list (list string)) : Prop :=
  ∃ entries sorted,
    ranges_over results entries ∧
    sort_Slice (MapToSlice entries) sorted ∧
    rows = map csv_row sorted.

Definition search_query : string := "language:go stars:>1000".

(** [run], lines 93-140: from the rows that [csv.Reader.ReadAll] has
    read from the cache file (created empty when it did not exist) to
    the merged mapping.  The flags, the cache directory and the errors of
    opening and reading the file come before and are not modelled.
    [None] when the fuel of [Search] runs out.  The merge does not depend
    on the order of the enumeration (see [range_merge_ranges_over]). *)
Definition run (env : Env) (fuel : nat) (pkg : string)
    (records : list (list string))
  : M (option (outcome (gmap string repoResult))) :=
  match load records ∅ with
  | Panic => ret (Some Panic)
  | Err e => ret (Some (Err e))
  | Ok results =>
      let s := newSearchResult pkg results in
      r <- Search env s fuel search_query 0 ∅ ;;
      match r with
      | None => ret None
      | Some (_, Some err) => ret (Some (Err (ErrSearching err)))
      | Some (newResults, None) =>
          ret (Some (Ok (range_merge (map_to_list newResults) results)))
      end
  end.

(** Two mappings agree when they give the same result for every
    repository they both contain. *)
Definition agree (m1 m2 : gmap string repoResult) : Prop :=
  ∀ k v1 v2, m1 !! k = Some v1 → m2 !! k = Some v2 → v1 = v2.

(** Every result is stored under the name it carries. *)
Definition names_are_keys (m : gmap string repoResult) : Prop :=
  ∀ k r, m !! k = Some r → name r = k.

(** The row of an entry of the mapping, from its key. *)
Definition entry_row (kv : string * repoResult) : list string :=
  [kv.1; if used kv.2 then "true" else "false"; Itoa (stars kv.2)].

(** ** Reading the trace *)

(** The repository an inspection event belongs to. *)
Definition ev_repo (e : Event) : option string :=
  match e with
  | EvSearchCode repo _ => Some repo
  | EvDownloadContents repo _ => Some repo
  | EvParse repo _ _ => Some repo
  | _ => None
  end.

(** The events of a page scan: everything but the repository search and
    the log line of [Search]. *)
Definition is_scan_event (e : Event) : bool :=
  match e with
  | EvSearchRepositories _ _ => false
  | EvLogScanError _ => false
  | _ => true
  end.

(** The downloads of a trace, in order: repository and path. *)
Fixpoint downloads (evs : list Event) : list (string * string) :=
  match evs with
  | [] => []
  | EvDownloadContents repo path :: evs' => (repo, path) :: downloads evs'
  | _ :: evs' => downloads evs'
  end.

(** The repository searches of a trace, in order: query and page. *)
Fixpoint search_calls (evs : list Event) : list (string * Z) :=
  match evs with
  | [] => []
  | EvSearchRepositories query page :: evs' => (query, page) :: search_calls evs'
  | _ :: evs' => search_calls evs'
  end.

(** A [require] entry for the package that is not marked indirect. *)
Definition direct_match (pkg : string) (require : Require_) : Prop :=
  ModPath require = pkg ∧ Indirect require = false.

(** The state [Search] is in when it hands a fetched page to the scan:
    one poll and one repository search after [st]. *)
Definition after_fetch (st : State) (query : string) (page : Z) : State :=
  {| clock := S (S (clock st));
     trace := trace st ++ [EvSearchRepositories query page] |}.

(** The state a run starts in. *)
Definition st0 : State := {| clock := 0; trace := [] |}.

(** ** Sample worlds

    The package [acme/widget] and the repository [org/repo1] of the
    specification, with a second repository and an archived one. *)

Definition widget : string := "acme/widget".

Definition repo1 : Repository :=
  {| FullName := "org/repo1"; OwnerLogin := "org"; RepoName := "repo1";
     Archived := false; Disabled := false; Fork := false;
     StargazersCount := 5000 |}.

Definition repo2 : Repository :=
  {| FullName := "org/repo2"; OwnerLogin := "org"; RepoName := "repo2";
     Archived := false; Disabled := false; Fork := false;
     StargazersCount := 4000 |}.

Definition repo_old : Repository :=
  {| FullName := "org/old"; OwnerLogin := "org"; RepoName := "old";
     Archived := true; Disabled := false; Fork := false;
     StargazersCount := 9000 |}.

Definition gomod : CodeResult :=
  {| Path := "go.mod"; HTMLURL := "https://github.com/org/repo/blob/main/go.mod" |}.

Definition sub_gomod : CodeResult :=
  {| Path := "sub/go.mod";
     HTMLURL := "https://github.com/org/repo/blob/main/sub/go.mod" |}.

Definition direct_manifest : string := "require acme/widget v1.2.0".
Definition indirect_manifest : string := "require acme/widget v1.2.0 // indirect".

(** The parser on the two sample manifests; anything else does not parse. *)
Definition parse_manifest (bb : string) : option File :=
  if String.eqb bb direct_manifest
  then Some {| Requires := [ {| ModPath := "acme/widget"; ModVersion := "v1.2.0";
                                Indirect := false |} ] |}
  else if String.eqb bb indirect_manifest
  then Some {| Requires := [ {| ModPath := "acme/widget"; ModVersion := "v1.2.0";
                                Indirect := true |} ] |}
  else None.

(** A world in which the repository search always answers with the same
    page and next-page indicator, the code search finds two manifests
    in every repository, and every download delivers [manifest]. *)
Definition github (ending : option (nat * ctx_error)) (page0 : list Repository)
    (NextPage : Z) (manifest : string) : Env :=
  {| ctx_end := ending;
     Search_Repositories := λ _ _ _, Some (page0, NextPage);
     Search_Code := λ _ _, Some [gomod; sub_gomod];
     DownloadContents := λ _ _ _ _,
       Some {| contents := Some manifest; close_ok := true |};
     modfile_Parse := parse_manifest |}.

(** ** The cache file and the rest of the page scan *)

(** [strings.ReplaceAll(packageName, "/", "-")], line 77. *)
Fixpoint replace_slash (s : string) : string :=
  match s with
  | EmptyString => EmptyString
  | String c s' =>
      String (if Ascii.eqb c "/" then "-"%char else c) (replace_slash s')
  end.

(** [fmt.Sprintf("cache/%s.csv", filename)], line 78. *)
Definition cache_file_name (packageName : string) : string :=
  ("cache/" ++ replace_slash packageName ++ ".csv")%string.

(** Lines 64-78 of [run]: the check of the two flags, then the name of
    the cache file; [None] for "missing package name or GitHub access
    token". *)
Definition cache_file_of_flags (packageName githubToken : string)
  : option string :=
  if String.eqb packageName "" || String.eqb githubToken ""
  then None
  else Some (cache_file_name packageName).

(** The occurrences of the byte [c] in a string. *)
Fixpoint count_char (c : ascii) (s : string) : nat :=
  match s with
  | EmptyString => 0
  | String c' s' => (if Ascii.eqb c' c then 1 else 0) + count_char c s'
  end.

(** Line 283: the repositories that the scan does not filter out. *)
Definition eligible (repo : Repository) : bool :=
  negb (Archived repo || Disabled repo || Fork repo).

(** Lines 283-295: the repositories that the scan inspects. *)
Definition to_inspect (s : searchResult) (repo : Repository) : bool :=
  eligible repo && bool_decide (cache s !! FullName repo = None).

(** The code searches of a trace, in order: the repository searched. *)
Fixpoint code_searches (evs : list Event) : list string :=
  match evs with
  | [] => []
  | EvSearchCode repo _ :: evs' => repo :: code_searches evs'
  | _ :: evs' => code_searches evs'
  end.

(** The sleeps of a trace, in order: their durations. *)
Fixpoint sleeps (evs : list Event) : list Z :=
  match evs with
  | [] => []
  | EvSleep d :: evs' => d :: sleeps evs'
  | _ :: evs' => sleeps evs'
  end.

(** The events of the loop over the files of one repository. *)
Definition is_file_event (e : Event) : bool :=
  match e with
  | EvDownloadContents _ _ => true
  | EvParse _ _ _ => true
  | _ => false
  end.

(** The result that the loading loop stores for a row. *)
Definition row_result (k f1 : string) (n : Z) : repoResult :=
  {| name := k; used := String.eqb f1 "true"; stars := n |}.

(** The world of [github] with a code search that is down. *)
Definition github_code_search_down (ending : option (nat * ctx_error))
    (page0 : list Repository) (NextPage : Z) : Env :=
  {| ctx_end := ending;
     Search_Repositories := λ _ _ _, Some (page0, NextPage);
     Search_Code := λ _ _, None;
     DownloadContents := λ _ _ _ _, None;
     modfile_Parse := parse_manifest |}.

(** ** The scan, as the specification words it

    Two definitions that follow the words of the specification, to
    compare the code with. *)




(** "For each match, retrieves raw file bytes; parses the manifest",
    with no short-circuit: every file is downloaded, one after the
    other from the moment [t] on, and a file that is downloaded, read
    and closed without an error is parsed, whatever the files before it
    have shown. *)
Fixpoint spec_file_events (env : Env) (repo : Repository) (t : nat)
    (files : list CodeResult) : list Event :=
  match files with
  | [] => []
  | file :: rest =>
      EvDownloadContents (FullName repo) (Path file)
      :: match DownloadContents env t (OwnerLogin repo) (RepoName repo)
                 (Path file) with
         | Some reader =>
             match contents reader with
             | Some bb =>
                 if close_ok reader
                 then [EvParse (FullName repo) (Path file) (modfile_Parse env bb)]
                 else []
             | None => []
             end
         | None => []
         end
      ++ spec_file_events env repo (S t) rest
  end.

(** * Properties *)

Example Atoi_5000 : Atoi "5000" = Some 5000.
Proof. reflexivity. Qed.
Example Atoi_neg : Atoi "-5" = Some (-5).
Proof. reflexivity. Qed.
Example Atoi_nan : Atoi "notanumber" = None.
Proof. reflexivity. Qed.
Example Atoi_big : Atoi "9223372036854775808" = None.
Proof. reflexivity. Qed.
Example Atoi_min : Atoi "-9223372036854775808" = Some (-9223372036854775808).
Proof. reflexivity. Qed.
Example Itoa_ex : Itoa 5000 = "5000" ∧ Itoa (-5) = "-5" ∧ Itoa 0 = "0".
Proof. repeat split; reflexivity. Qed.

(** ** strconv.Atoi reads what strconv.Itoa writes *)

Ltac eval_digit :=
  repeat match goal with
  | |- context [digit_val ?c] =>
      let v := eval vm_compute in (digit_val c) in change (digit_val c) with v
  end.

Lemma parse_digits_of_uint_acc (d : Decimal.uint) (acc : positive) :
  parse_digits (NilEmpty.string_of_uint d) (Zpos acc)
  = Some (Zpos (Pos.of_uint_acc d acc)).
Proof.
  revert acc. induction d as [|d IH|d IH|d IH|d IH|d IH|d IH|d IH|d IH|d IH|d IH];
    intros acc; [done|..];
    cbn [NilEmpty.string_of_uint parse_digits Pos.of_uint_acc];
    change (is_digit _) with true; cbn iota; rewrite <- IH; f_equal;
    eval_digit; lia.
Qed.

Lemma parse_digits_of_uint (d : Decimal.uint) :
  parse_digits (NilEmpty.string_of_uint d) 0 = Some (Z.of_N (Pos.of_uint d)).
Proof.
  induction d as [|d IH|d IH|d IH|d IH|d IH|d IH|d IH|d IH|d IH|d IH];
    [done|exact IH|..];
    cbn [NilEmpty.string_of_uint parse_digits Pos.of_uint];
    change (is_digit _) with true; cbn iota;
    cbn [Z.of_N]; rewrite <- parse_digits_of_uint_acc; f_equal.
Qed.

Lemma string_of_uint_to_uint (p : positive) :
  ∃ c rest, NilEmpty.string_of_uint (Pos.to_uint p) = String c rest
            ∧ is_digit c = true.
Proof.
  pose proof (DecimalPos.Unsigned.to_uint_nonnil p) as Hnil.
  destruct (Pos.to_uint p); [done|..]; eexists _, _; split; reflexivity.
Qed.

Lemma Atoi_unsigned (c : ascii) (rest : string) (n : Z) :
  is_digit c = true →
  parse_digits (String c rest) 0 = Some n →
  Atoi (String c rest) = if in_int_range n then Some n else None.
Proof.
  intros Hc Hparse. unfold Atoi.
  assert (Hminus : Ascii.eqb c "-" = false)
    by (destruct (Ascii.eqb_spec c "-") as [->|]; done).
  assert (Hplus : Ascii.eqb c "+" = false)
    by (destruct (Ascii.eqb_spec c "+") as [->|]; done).
  rewrite Hminus, Hplus. cbv beta iota zeta delta [orb]. by rewrite Hparse.
Qed.

Lemma Atoi_negative (c : ascii) (rest : string) (n : Z) :
  parse_digits (String c rest) 0 = Some n →
  Atoi (String "-" (String c rest)) = if in_int_range (- n) then Some (- n) else None.
Proof.
  intros Hparse. unfold Atoi.
  change (Ascii.eqb "-" "-") with true. cbv beta iota zeta delta [orb].
  by rewrite Hparse.
Qed.

(** A star count written by [strconv.Itoa] is read back by
    [strconv.Atoi], negative ones included. *)
Lemma Atoi_Itoa (z : Z) : in_int_range z = true → Atoi (Itoa z) = Some z.
Proof.
  intros Hrange. unfold Itoa. destruct z as [|p|p]; [done|..];
    cbn [Z.to_int NilZero.string_of_int];
    destruct (string_of_uint_to_uint p) as (c & rest & Hs & Hc);
    pose proof (parse_digits_of_uint (Pos.to_uint p)) as Hparse;
    rewrite DecimalPos.Unsigned.of_to, Hs in Hparse; cbn [Z.of_N] in Hparse;
    (assert (Hstr : NilZero.string_of_uint (Pos.to_uint p) = String c rest)
      by (unfold NilZero.string_of_uint; rewrite <- Hs;
          pose proof (DecimalPos.Unsigned.to_uint_nonnil p);
          by destruct (Pos.to_uint p)));
    rewrite Hstr.
  - rewrite (Atoi_unsigned c rest _ Hc Hparse). by rewrite Hrange.
  - rewrite (Atoi_negative c rest _ Hparse).
    change (- Z.pos p) with (Z.neg p). by rewrite Hrange.
Qed.

(** ** Cache store: loading *)

Lemma load_no_panic (records : list (list string)) (acc : gmap string repoResult) :
  Forall (λ r, (3 <= length r)%nat) records → load records acc ≠ Panic.
Proof.
  revert acc. induction records as [|r rest IH]; intros acc Hall; simpl.
  - discriminate.
  - apply Forall_cons in Hall as [Hr Hrest].
    destruct (lookup_lt_is_Some_2 r 2%nat) as [f2 ->]; [lia|].
    destruct (lookup_lt_is_Some_2 r 0%nat) as [f0 ->]; [lia|].
    destruct (lookup_lt_is_Some_2 r 1%nat) as [f1 ->]; [lia|].
    destruct (Atoi f2); [by apply IH | discriminate].
Qed.

Lemma load_short_row_panics (r : list string) (rest : list (list string))
    (acc : gmap string repoResult) :
  (length r < 3)%nat → load (r :: rest) acc = Panic.
Proof.
  intros Hlen. simpl. rewrite (lookup_ge_None_2 r 2%nat); [done | lia].
Qed.

Lemma load_err_iff (records : list (list string)) (acc : gmap string repoResult) :
  Forall (λ r, (3 <= length r)%nat) records →
  load records acc = Err ErrInvalidStarCount ↔
  Exists (λ r, ∃ f2, r !! 2%nat = Some f2 ∧ Atoi f2 = None) records.
Proof.
  revert acc. induction records as [|r rest IH]; intros acc Hall; simpl.
  - split; [discriminate | intros H; inversion H].
  - apply Forall_cons in Hall as [Hr Hrest].
    destruct (lookup_lt_is_Some_2 r 2%nat) as [f2 Hf2]; [lia|].
    destruct (lookup_lt_is_Some_2 r 0%nat) as [f0 Hf0]; [lia|].
    destruct (lookup_lt_is_Some_2 r 1%nat) as [f1 Hf1]; [lia|].
    rewrite Hf2, Hf0, Hf1. destruct (Atoi f2) as [n|] eqn:Hatoi.
    + rewrite IH by done. split.
      * intros H. by apply Exists_cons_tl.
      * intros H. apply Exists_cons in H as [(f & Hf & Hbad)|H]; [|done].
        congruence.
    + split; [|done]. intros _. apply Exists_cons_hd. eauto.
Qed.

Lemma load_err_is_star_count (records : list (list string))
    (acc : gmap string repoResult) (e : error) :
  load records acc = Err e → e = ErrInvalidStarCount.
Proof.
  revert acc. induction records as [|r rest IH]; intros acc; simpl; [discriminate|].
  destruct (r !! 2%nat); [|discriminate].
  destruct (Atoi _); [|congruence].
  destruct (r !! 0%nat); [|discriminate].
  destruct (r !! 1%nat); [|discriminate].
  apply IH.
Qed.

(** A row written by [run] is read back as the result it was written
    for. *)
Lemma load_csv_row (r : repoResult) (rest : list (list string))
    (acc : gmap string repoResult) :
  in_int_range (stars r) = true →
  load (csv_row r :: rest) acc = load rest (<[name r := r]> acc).
Proof.
  intros Hrange. unfold csv_row. cbn [load lookup list_lookup].
  rewrite (Atoi_Itoa _ Hrange). destruct r as [n u z]. cbn [name used stars].
  by destruct u.
Qed.

Lemma run_load_error (env : Env) (fuel : nat) (pkg : string)
    (records : list (list string)) (e : error) (st : State) :
  load records ∅ = Err e → run env fuel pkg records st = (Some (Err e), st).
Proof. intros H. unfold run. by rewrite H. Qed.

(** C4 (amended).  When every row has at least three fields, loading
    fails with the star-count error exactly when the third field of some
    row is rejected by [strconv.Atoi], that is, is not an optionally
    signed decimal integer in the range of [int]; no other error comes
    out of the loading loop, and such a failure ends [run] with the
    world untouched: no call of the search has been made.  A file
    without rows loads as the empty mapping. *)
Theorem load_fails_iff_star_count_rejected (records : list (list string)) :
  Forall (λ r, (3 <= length r)%nat) records →
  (load records ∅ = Err ErrInvalidStarCount ↔
   Exists (λ r, ∃ f2, r !! 2%nat = Some f2 ∧ Atoi f2 = None) records)
  ∧ (∀ e, load records ∅ = Err e →
       e = ErrInvalidStarCount ∧
       ∀ env fuel pkg st, run env fuel pkg records st = (Some (Err e), st))
  ∧ load [] ∅ = Ok ∅.
Proof.
  intros Hall. split; [by apply load_err_iff|]. split; [|done].
  intros e He. split; [by eapply load_err_is_star_count|].
  intros. by apply run_load_error.
Qed.

(** The row [org/x,true,notanumber] of the specification. *)
Lemma load_fails_iff_star_count_rejected_witness :
  Forall (λ r, (3 <= length r)%nat) [["org/x"; "true"; "notanumber"]] ∧
  load [["org/x"; "true"; "notanumber"]] ∅ = Err ErrInvalidStarCount.
Proof.
  assert (Hall : Forall (λ r, (3 <= length r)%nat) [["org/x"; "true"; "notanumber"]])
    by (repeat constructor).
  split; [exact Hall|].
  destruct (load_fails_iff_star_count_rejected _ Hall) as [H _].
  apply H. apply Exists_cons_hd. exists "notanumber". split; reflexivity.
Defined.

(** C4, as the specification states it, fails: a row whose third field
    is a negative number is accepted, and the negative star count enters
    the cache. *)
Lemma load_accepts_negative_star_count :
  ∃ m, load [["org/x"; "true"; "-5"]] ∅ = Ok m ∧
       m !! "org/x" = Some {| name := "org/x"; used := true; stars := -5 |} ∧
       Atoi "-5" = Some (-5).
Proof.
  eexists. split; [reflexivity|]. split; [|reflexivity].
  vm_compute. reflexivity.
Qed.

(** C10.  A cache file that the CSV reader accepts and that has at least
    one row makes the loading loop index out of range exactly when its
    rows have fewer than three fields; no corruption error is returned
    then. *)
Theorem load_panics_iff_short_rows (records : list (list string)) :
  csv_accepted records → records ≠ [] →
  (load records ∅ = Panic ↔ Forall (λ r, (length r < 3)%nat) records).
Proof.
  intros Hcsv Hne. destruct records as [|r0 rest]; [done|].
  destruct Hcsv as [Hpos Hsame].
  destruct (decide (length r0 < 3)%nat) as [Hlt|Hge].
  - split; intros _.
    + eapply Forall_impl; [exact Hsame|]. simpl. intros r ->. done.
    + by apply load_short_row_panics.
  - split.
    + intros Hp. exfalso. revert Hp. apply load_no_panic.
      eapply Forall_impl; [exact Hsame|]. simpl. intros r ->. lia.
    + intros Hall. apply Forall_cons in Hall as [Hr0 _]. lia.
Qed.

Lemma load_panics_iff_short_rows_witness :
  csv_accepted [["org/x"; "true"]; ["org/y"; "false"]] ∧
  load [["org/x"; "true"]; ["org/y"; "false"]] ∅ = Panic.
Proof.
  assert (Hcsv : csv_accepted [["org/x"; "true"]; ["org/y"; "false"]])
    by (split; [simpl; lia | repeat constructor]).
  split; [exact Hcsv|].
  apply (load_panics_iff_short_rows _ Hcsv); [discriminate | repeat constructor].
Defined.

(** ** Merging *)

Lemma range_update_union (entries : list (string * repoResult))
    (results : gmap string repoResult) :
  NoDup entries.*1 →
  range_update entries results = list_to_map entries ∪ results.
Proof.
  unfold range_update. revert results.
  induction entries as [|[k v] rest IH]; intros results Hnd; simpl.
  - by rewrite (left_id_L ∅ (∪)).
  - apply NoDup_cons in Hnd as [Hk Hnd]. rewrite IH by done.
    rewrite <- insert_union_l. symmetry. apply insert_union_r.
    by apply not_elem_of_list_to_map_1.
Qed.

(** Whatever the order of the enumeration, the loop of lines 240-242
    computes the union in which the scanned page wins. *)
Lemma range_update_ranges_over (m results : gmap string repoResult)
    (entries : list (string * repoResult)) :
  ranges_over m entries → range_update entries results = m ∪ results.
Proof.
  intros Hperm. unfold ranges_over in Hperm.
  assert (Hnd : NoDup entries.*1)
    by (rewrite Hperm; apply NoDup_fst_map_to_list).
  rewrite range_update_union by done.
  by rewrite (list_to_map_proper _ _ Hnd Hperm), list_to_map_to_list.
Qed.

Lemma range_merge_union (entries : list (string * repoResult))
    (results : gmap string repoResult) :
  range_merge entries results = results ∪ list_to_map entries.
Proof.
  unfold range_merge. revert results.
  induction entries as [|[k v] rest IH]; intros results; simpl.
  - by rewrite (right_id_L ∅ (∪)).
  - rewrite IH. destruct (results !! k) as [x|] eqn:Hk.
    + apply map_eq. intros j. rewrite !lookup_union.
      destruct (decide (k = j)) as [<-|Hne].
      * rewrite Hk. by destruct (list_to_map rest !! k), (<[k:=v]> _ !! k).
      * by rewrite lookup_insert_ne.
    + rewrite <- insert_union_l. by apply insert_union_r.
Qed.

(** Whatever the order of the enumeration, the loop of lines 136-140
    computes the union in which the cache wins. *)
Lemma range_merge_ranges_over (m results : gmap string repoResult)
    (entries : list (string * repoResult)) :
  ranges_over m entries → range_merge entries results = results ∪ m.
Proof.
  intros Hperm. unfold ranges_over in Hperm. rewrite range_merge_union.
  assert (Hnd : NoDup entries.*1)
    by (rewrite Hperm; apply NoDup_fst_map_to_list).
  by rewrite (list_to_map_proper _ _ Hnd Hperm), list_to_map_to_list.
Qed.

Lemma merge_pages_cons (page : gmap string repoResult)
    (pages : list (gmap string repoResult)) (results : gmap string repoResult) :
  merge_pages (page :: pages) results = merge_pages pages (page ∪ results).
Proof.
  unfold merge_pages. simpl.
  by rewrite (range_update_ranges_over page) by (unfold ranges_over; done).
Qed.

Lemma merge_pages_dom_acc (pages : list (gmap string repoResult))
    (acc1 acc2 : gmap string repoResult) :
  dom acc1 = dom acc2 → dom (merge_pages pages acc1) = dom (merge_pages pages acc2).
Proof.
  revert acc1 acc2. induction pages as [|p pages IH]; intros acc1 acc2 Hd.
  - done.
  - rewrite !merge_pages_cons. apply IH. rewrite !dom_union_L. by rewrite Hd.
Qed.

Lemma merge_pages_dom_perm (pages pages' : list (gmap string repoResult))
    (acc : gmap string repoResult) :
  pages ≡ₚ pages' → dom (merge_pages pages acc) = dom (merge_pages pages' acc).
Proof.
  intros Hperm. revert acc.
  induction Hperm as [|x l l' _ IH|x y l|l l' l'' _ IH1 _ IH2]; intros acc.
  - done.
  - rewrite !merge_pages_cons. apply IH.
  - rewrite !merge_pages_cons. apply merge_pages_dom_acc.
    rewrite !dom_union_L. apply set_eq. intros k. rewrite !elem_of_union. tauto.
  - by rewrite IH1.
Qed.

Lemma agree_union_swap (x y acc : gmap string repoResult) :
  agree x y → x ∪ (y ∪ acc) = y ∪ (x ∪ acc).
Proof.
  intros Hag. apply map_eq. intros k. rewrite !lookup_union.
  destruct (x !! k) as [vx|] eqn:Hx, (y !! k) as [vy|] eqn:Hy;
    destruct (acc !! k); simpl; try done;
    by rewrite (Hag k vx vy Hx Hy).
Qed.

Lemma agree_union_comm (x y : gmap string repoResult) :
  agree x y → x ∪ y = y ∪ x.
Proof.
  intros Hag. apply map_eq. intros k. rewrite !lookup_union.
  destruct (x !! k) as [vx|] eqn:Hx, (y !! k) as [vy|] eqn:Hy; simpl; try done.
  by rewrite (Hag k vx vy Hx Hy).
Qed.

Lemma merge_pages_agree_perm (pages pages' : list (gmap string repoResult))
    (acc : gmap string repoResult) :
  pages ≡ₚ pages' →
  (∀ p q, p ∈ pages → q ∈ pages → agree p q) →
  merge_pages pages acc = merge_pages pages' acc.
Proof.
  intros Hperm. revert acc.
  induction Hperm as [|x l l' _ IH|x y l|l l' l'' Hp1 IH1 _ IH2]; intros acc Hag.
  - done.
  - rewrite !merge_pages_cons. apply IH.
    intros p q Hp Hq. apply Hag; apply elem_of_cons; by right.
  - rewrite !merge_pages_cons. f_equal. apply agree_union_swap.
    apply Hag; rewrite !elem_of_cons; auto.
  - rewrite IH1 by done. apply IH2.
    intros p q Hp Hq. apply Hag; by rewrite Hp1.
Qed.

Lemma merge_pages_app (pages1 pages2 : list (gmap string repoResult))
    (results : gmap string repoResult) :
  merge_pages (pages1 ++ pages2) results
  = merge_pages pages2 (merge_pages pages1 results).
Proof. unfold merge_pages. apply foldl_app. Qed.

Lemma merge_pages_untouched (pages : list (gmap string repoResult))
    (results : gmap string repoResult) (k : string) :
  Forall (λ q : gmap string repoResult, q !! k = None) pages →
  merge_pages pages results !! k = results !! k.
Proof.
  intros Hall. revert results.
  induction Hall as [|q pages Hq _ IH]; intros results; [done|].
  rewrite merge_pages_cons, IH. by apply lookup_union_r.
Qed.

(** In the merge of the pages, the last page that has a repository
    decides its result. *)
Lemma merge_pages_last_wins (before after : list (gmap string repoResult))
    (page results : gmap string repoResult) (k : string) (v : repoResult) :
  page !! k = Some v →
  Forall (λ q : gmap string repoResult, q !! k = None) after →
  merge_pages (before ++ page :: after) results !! k = Some v.
Proof.
  intros Hk Hafter.
  rewrite merge_pages_app, merge_pages_cons, merge_pages_untouched by done.
  by apply lookup_union_Some_l.
Qed.

(** C9 (amended).  Merging the page mappings in another order yields a
    mapping with the same keys; it yields the same mapping when the pages
    agree on the repositories they share (in particular when no
    repository is on two pages).  In general the page merged last
    decides the result of a repository that several pages have, and a
    repository that no page has keeps its accumulated result.  The merge
    of the search results into the cache at the top level is commutative
    under the same condition of agreement. *)
Theorem merge_order_independent_when_agreeing
    (pages pages' : list (gmap string repoResult))
    (results : gmap string repoResult) :
  pages ≡ₚ pages' →
  dom (merge_pages pages results) = dom (merge_pages pages' results)
  ∧ ((∀ p q, p ∈ pages → q ∈ pages → agree p q) →
     merge_pages pages results = merge_pages pages' results)
  ∧ (∀ cached new : gmap string repoResult,
       agree cached new →
       range_merge (map_to_list new) cached = range_merge (map_to_list cached) new)
  ∧ (∀ before page after k v,
       pages = before ++ page :: after →
       page !! k = Some v →
       Forall (λ q : gmap string repoResult, q !! k = None) after →
       merge_pages pages results !! k = Some v)
  ∧ (∀ k, Forall (λ q : gmap string repoResult, q !! k = None) pages →
          merge_pages pages results !! k = results !! k).
Proof.
  intros Hperm. split; [by apply merge_pages_dom_perm|].
  split; [by apply merge_pages_agree_perm|]. split.
  - intros cached new Hag.
    rewrite !(range_merge_ranges_over _ _ (map_to_list _))
      by (unfold ranges_over; done).
    by apply agree_union_comm.
  - split.
    + intros before page after k v -> Hk Hafter. by apply merge_pages_last_wins.
    + intros k Hall. by apply merge_pages_untouched.
Qed.

Lemma merge_order_independent_when_agreeing_witness :
  let p1 : gmap string repoResult :=
    {[ "org/a" := {| name := "org/a"; used := true; stars := 5000 |} ]} in
  let p2 : gmap string repoResult :=
    {[ "org/b" := {| name := "org/b"; used := false; stars := 4000 |} ]} in
  [p1; p2] ≡ₚ [p2; p1] ∧
  (∀ p q, p ∈ [p1; p2] → q ∈ [p1; p2] → agree p q) ∧
  merge_pages [p1; p2] ∅ = merge_pages [p2; p1] ∅.
Proof.
  intros p1 p2.
  assert (Hperm : [p1; p2] ≡ₚ [p2; p1]) by apply perm_swap.
  assert (Hag : ∀ p q, p ∈ [p1; p2] → q ∈ [p1; p2] → agree p q).
  { intros p q Hp Hq k v1 v2 H1 H2.
    apply elem_of_cons in Hp as [->|Hp]; [|apply list_elem_of_singleton in Hp as ->];
    (apply elem_of_cons in Hq as [->|Hq]; [|apply list_elem_of_singleton in Hq as ->]);
    subst p1 p2;
    apply lookup_singleton_Some in H1 as [<- <-];
    apply lookup_singleton_Some in H2 as [? <-]; done. }
  split; [exact Hperm|]. split; [exact Hag|].
  destruct (merge_order_independent_when_agreeing [p1; p2] [p2; p1] ∅ Hperm)
    as (_ & H & _).
  exact (H Hag).
Defined.

(** C9, as the specification states it, fails: when a repository is
    scanned on two pages with different outcomes, the page merged last
    decides, so the two orders give different mappings. *)
Lemma merge_pages_order_matters :
  let r1 := {| name := "org/a"; used := true; stars := 5000 |} in
  let r2 := {| name := "org/a"; used := true; stars := 5001 |} in
  let p1 : gmap string repoResult := {[ "org/a" := r1 ]} in
  let p2 : gmap string repoResult := {[ "org/a" := r2 ]} in
  [p1; p2] ≡ₚ [p2; p1]
  ∧ merge_pages [p1; p2] ∅ !! "org/a" = Some r2
  ∧ merge_pages [p2; p1] ∅ !! "org/a" = Some r1
  ∧ merge_pages [p1; p2] ∅ ≠ merge_pages [p2; p1] ∅.
Proof.
  intros r1 r2 p1 p2. split; [apply perm_swap|].
  split; [vm_compute; reflexivity|]. split; [vm_compute; reflexivity|].
  intros Heq. apply (f_equal (λ m, m !! "org/a")) in Heq.
  vm_compute in Heq. discriminate.
Qed.

(** ** Cache store: persisting *)

Lemma less_false_iff (a b : repoResult) : less b a = false ↔ stars b <= stars a.
Proof. unfold less. rewrite Z.ltb_ge. done. Qed.

Lemma insert_by_stars_perm (x : repoResult) (l : list repoResult) :
  insert_by_stars x l ≡ₚ x :: l.
Proof.
  induction l as [|y l IH]; simpl; [done|].
  destruct (less y x); [|done].
  rewrite IH. apply perm_swap.
Qed.

Lemma insertion_sort_perm (l : list repoResult) : l ≡ₚ insertion_sort l.
Proof.
  induction l as [|x l IH]; simpl; [done|].
  rewrite insert_by_stars_perm. by rewrite <- IH.
Qed.

Lemma insert_by_stars_sorted (x : repoResult) (l : list repoResult) :
  Sorted (λ a b, less b a = false) l →
  Sorted (λ a b, less b a = false) (insert_by_stars x l).
Proof.
  induction l as [|y l IH]; intros Hs; simpl.
  - repeat constructor.
  - apply Sorted_inv in Hs as [Hs Hhd].
    destruct (less y x) eqn:Hyx.
    + constructor; [by apply IH|].
      destruct l as [|z l]; simpl.
      * constructor. apply less_false_iff. unfold less in Hyx.
        apply Z.ltb_lt in Hyx. lia.
      * apply HdRel_inv in Hhd. destruct (less z x); constructor; [done|].
        apply less_false_iff. unfold less in Hyx. apply Z.ltb_lt in Hyx. lia.
    + constructor; [by constructor|]. constructor.
      apply less_false_iff. unfold less in Hyx. apply Z.ltb_ge in Hyx. lia.
Qed.

Lemma insertion_sort_sorted (l : list repoResult) :
  Sorted (λ a b, less b a = false) (insertion_sort l).
Proof.
  induction l as [|x l IH]; simpl; [constructor|].
  by apply insert_by_stars_sorted.
Qed.

Lemma sort_Slice_insertion_sort (l : list repoResult) :
  sort_Slice l (insertion_sort l).
Proof. split; [apply insertion_sort_perm | apply insertion_sort_sorted]. Qed.

Lemma sort_Slice_descending (l l' : list repoResult) :
  sort_Slice l l' → StronglySorted (λ a b, stars b <= stars a) l'.
Proof.
  intros [_ Hs]. apply Sorted_StronglySorted.
  - intros a b c Hab Hbc. lia.
  - eapply Sorted_ind with (P := Sorted (λ a b, stars b <= stars a)) in Hs;
      [exact Hs | constructor |].
    intros a l0 _ IH Hhd. constructor; [done|].
    destruct Hhd; constructor. by apply less_false_iff.
Qed.

Lemma csv_row_entry_row (entries : list (string * repoResult)) :
  Forall (λ kv, name kv.2 = kv.1) entries →
  map csv_row (map snd entries) = map entry_row entries.
Proof.
  induction 1 as [|[k r] l Hn _ IH]; simpl; [done|].
  simpl in Hn. rewrite <- IH. unfold csv_row at 1, entry_row. simpl.
  by rewrite Hn.
Qed.

Lemma persisted_exists (results : gmap string repoResult) :
  ∃ rows, persisted results rows.
Proof.
  eexists. exists (map_to_list results), (insertion_sort (MapToSlice (map_to_list results))).
  split; [unfold ranges_over; done|]. split; [apply sort_Slice_insertion_sort|done].
Qed.

(** C5 (amended).  The rows written for a merged mapping are the records
    [(name, "true"/"false", decimal star count)] of its results, each
    one once, in an order in which the star counts never increase; when
    every result is stored under its own name, these are the rows of the
    entries of the mapping.  Nothing is promised about the order of rows
    with equal star counts. *)
Theorem persisted_rows_sorted_by_stars (results : gmap string repoResult)
    (rows : list (list string)) :
  persisted results rows →
  ∃ sorted,
    rows = map csv_row sorted
    ∧ sorted ≡ₚ map snd (map_to_list results)
    ∧ StronglySorted (λ a b, stars b <= stars a) sorted
    ∧ (names_are_keys results → rows ≡ₚ map entry_row (map_to_list results)).
Proof.
  intros (entries & sorted & Hent & Hsort & ->). exists sorted.
  unfold ranges_over in Hent. pose proof Hsort as [Hperm _].
  unfold MapToSlice in Hperm.
  split; [done|]. split; [by rewrite <- Hperm, Hent|].
  split; [by eapply sort_Slice_descending|].
  intros Hnk. rewrite <- Hperm, Hent. rewrite csv_row_entry_row; [done|].
  apply Forall_forall. intros [k r] Hin. simpl.
  apply Hnk. by apply elem_of_map_to_list.
Qed.

Lemma persisted_rows_sorted_by_stars_witness :
  let ra := {| name := "org/a"; used := true; stars := 5000 |} in
  let rb := {| name := "org/b"; used := false; stars := 7000 |} in
  let results : gmap string repoResult := <["org/a" := ra]> (<["org/b" := rb]> ∅) in
  let rows := [["org/b"; "false"; "7000"]; ["org/a"; "true"; "5000"]] in
  persisted results rows ∧
  ∃ sorted, rows = map csv_row sorted ∧
            StronglySorted (λ a b, stars b <= stars a) sorted.
Proof.
  intros ra rb results rows.
  assert (Hp : persisted results rows).
  { exists [("org/a", ra); ("org/b", rb)], [rb; ra]. split; [|split].
    - unfold ranges_over.
      replace (map_to_list results) with [("org/a", ra); ("org/b", rb)]
        by (vm_compute; reflexivity).
      done.
    - split; [apply perm_swap|]. repeat constructor.
    - reflexivity. }
  split; [exact Hp|].
  destruct (persisted_rows_sorted_by_stars results rows Hp)
    as (sorted & Hrows & _ & Hsorted & _).
  exists sorted. split; [exact Hrows | exact Hsorted].
Defined.

(** C5, as the specification states it, fails: for two results with the
    same star count both orders of their rows can be written, since the
    enumeration of a Go map has no fixed order and keeps no trace of the
    order of insertion. *)
Lemma persisted_order_of_ties_not_determined :
  let ra := {| name := "org/a"; used := true; stars := 5000 |} in
  let rb := {| name := "org/b"; used := false; stars := 5000 |} in
  let results : gmap string repoResult := <["org/a" := ra]> (<["org/b" := rb]> ∅) in
  let rows1 := [["org/a"; "true"; "5000"]; ["org/b"; "false"; "5000"]] in
  let rows2 := [["org/b"; "false"; "5000"]; ["org/a"; "true"; "5000"]] in
  persisted results rows1 ∧ persisted results rows2 ∧ rows1 ≠ rows2.
Proof.
  intros ra rb results rows1 rows2.
  assert (Hl : map_to_list results = [("org/a", ra); ("org/b", rb)])
    by (vm_compute; reflexivity).
  split; [|split].
  - exists [("org/a", ra); ("org/b", rb)], [ra; rb]. split; [|split].
    + unfold ranges_over. by rewrite Hl.
    + split; [done|]. repeat constructor.
    + reflexivity.
  - exists [("org/b", rb); ("org/a", ra)], [rb; ra]. split; [|split].
    + unfold ranges_over. rewrite Hl. apply perm_swap.
    + split; [done|]. repeat constructor.
    + reflexivity.
  - discriminate.
Qed.

(** ** The context *)

Lemma ctx_Err_mono (env : Env) (t t' : nat) (e : ctx_error) :
  ctx_Err env t = Some e → (t <= t')%nat → ctx_Err env t' = Some e.
Proof.
  unfold ctx_Err. destruct (ctx_end env) as [[t0 e0]|]; [|done].
  destruct (t0 <=? t)%nat eqn:Ht; [|done]. intros [= <-] Hle.
  apply Nat.leb_le in Ht.
  by rewrite (proj2 (Nat.leb_le t0 t')) by lia.
Qed.

Lemma ctx_Err_never (env : Env) (t : nat) :
  ctx_end env = None → ctx_Err env t = None.
Proof. unfold ctx_Err. by intros ->. Qed.

(** ** Manifest inspection *)

Section PipelineFacts.

Variable env : Env.
Variable s : searchResult.

Lemma scan_requires_true_iff (reqs : list Require_) (used0 : bool) :
  scan_requires s reqs used0 = true ↔
  used0 = true ∨ ∃ require, In require reqs ∧ direct_match (packageName s) require.
Proof.
  unfold direct_match. induction reqs as [|r rest IH]; simpl.
  - split; [by left | intros [H|(r & [] & _)]; done].
  - destruct (String.eqb_spec (ModPath r) (packageName s)) as [Heq|Hne];
      destruct (Indirect r) eqn:Hind; simpl.
    + rewrite IH. split; (intros [H|(r' & Hin & Hp & Hi)]; [by left|right]).
      * exists r'. auto.
      * destruct Hin as [<-|Hin]; [congruence|]. exists r'. auto.
    + split; [|done]. intros _. right. exists r. auto.
    + rewrite IH. split; (intros [H|(r' & Hin & Hp & Hi)]; [by left|right]).
      * exists r'. auto.
      * destruct Hin as [<-|Hin]; [congruence|]. exists r'. auto.
    + rewrite IH. split; (intros [H|(r' & Hin & Hp & Hi)]; [by left|right]).
      * exists r'. auto.
      * destruct Hin as [<-|Hin]; [congruence|]. exists r'. auto.
Qed.

Lemma scan_requires_keeps_true (reqs : list Require_) :
  scan_requires s reqs true = true.
Proof. apply scan_requires_true_iff. by left. Qed.

(** One iteration of the loop over the files. *)
Lemma scan_files_cons (repo : Repository) (file : CodeResult)
    (rest : list CodeResult) (used0 : bool) (st : State) :
  scan_files env s repo (file :: rest) used0 st =
  let st1 := {| clock := S (clock st);
                trace := trace st ++ [EvDownloadContents (FullName repo) (Path file)] |} in
  match DownloadContents env (clock st) (OwnerLogin repo) (RepoName repo) (Path file) with
  | None => scan_files env s repo rest used0 st1
  | Some reader =>
      match contents reader with
      | None => scan_files env s repo rest used0 st1
      | Some bb =>
          if negb (close_ok reader) then scan_files env s repo rest used0 st1
          else
            let st2 := {| clock := S (clock st);
                          trace := trace st1 ++
                            [EvParse (FullName repo) (Path file) (modfile_Parse env bb)] |} in
            match modfile_Parse env bb with
            | None => scan_files env s repo rest used0 st2
            | Some f =>
                scan_files env s repo rest (scan_requires s (Requires f) used0) st2
            end
      end
  end.
Proof.
  cbn [scan_files]. unfold bind at 1. unfold call_DownloadContents, bind, emit, tick.
  cbn [clock trace].
  destruct (DownloadContents _ _ _ _ _) as [reader|]; [|done].
  destruct (contents reader) as [bb|]; [|done].
  destruct (negb (close_ok reader)); [done|].
  unfold call_modfile_Parse, bind, emit, ret. cbn [clock trace].
  by destruct (modfile_Parse env bb).
Qed.

Lemma scan_files_spec (repo : Repository) (files : list CodeResult)
    (used0 : bool) (st : State) (u : bool) (st' : State) :
  scan_files env s repo files used0 st = (u, st') →
  ∃ evs,
    trace st' = trace st ++ evs
    ∧ (clock st <= clock st')%nat
    ∧ Forall (λ e, ev_repo e = Some (FullName repo) ∧ is_scan_event e = true) evs
    ∧ downloads evs = map (λ f, (FullName repo, Path f)) files
    ∧ (u = true ↔
       used0 = true ∨
       ∃ path f require,
         In (EvParse (FullName repo) path (Some f)) evs ∧
         In require (Requires f) ∧ direct_match (packageName s) require).
Proof.
  revert used0 st. induction files as [|file rest IH]; intros used0 st Hrun.
  - simpl in Hrun. injection Hrun as <- <-. exists []. rewrite app_nil_r.
    split_and!; [done|done|done|done|]. split; [by left|].
    intros [H|(? & ? & ? & [] & _)]; done.
  - rewrite scan_files_cons in Hrun. cbn zeta in Hrun.
    destruct (DownloadContents _ _ _ _ _) as [reader|];
      [destruct (contents reader) as [bb|];
       [destruct (negb (close_ok reader));
        [|destruct (modfile_Parse env bb) as [f|] eqn:Hparse]|]|];
      apply IH in Hrun as (evs & Htr & Hclk & Hall & Hdl & Hu);
      cbn [clock trace] in Htr, Hclk.
    (* the file is skipped: close error, read error, download error *)
    1, 4, 5:
      (exists (EvDownloadContents (FullName repo) (Path file) :: evs);
       rewrite Htr, <- app_assoc;
       split_and!; [done|lia|by constructor|by simpl; rewrite Hdl|];
       rewrite Hu; split;
       (intros [H|(p & f & r & Hin & Hr)]; [by left|right; exists p, f, r]);
       [split; [by right|done] | destruct Hin as [Hin|Hin]; [done|by split]]).
    + (* the manifest is parsed *)
      exists (EvDownloadContents (FullName repo) (Path file) ::
              EvParse (FullName repo) (Path file) (Some f) :: evs).
      rewrite Htr, <- !app_assoc.
      split_and!; [done|lia|by repeat constructor|by simpl; rewrite Hdl|].
      rewrite Hu, scan_requires_true_iff. split.
      * intros [[H|(r & Hin & Hr)]|(p & f' & r & Hin & Hr)]; [by left| |].
        -- right. exists (Path file), f, r. split; [right; by left|done].
        -- right. exists p, f', r. split; [right; by right|done].
      * intros [H|(p & f' & r & [Hin|[Hin|Hin]] & Hr)]; [by left; left|done| |].
        -- injection Hin as _ <-. left. right. by exists r.
        -- right. by exists p, f', r.
    + (* the manifest does not parse *)
      exists (EvDownloadContents (FullName repo) (Path file) ::
              EvParse (FullName repo) (Path file) None :: evs).
      rewrite Htr, <- !app_assoc.
      split_and!; [done|lia|by repeat constructor|by simpl; rewrite Hdl|].
      rewrite Hu. split;
        (intros [H|(p & f' & r & Hin & Hr)]; [by left|right; exists p, f', r]).
      * split; [right; by right|done].
      * destruct Hin as [Hin|[Hin|Hin]]; [done|done|by split].
Qed.

Lemma scan_repository_eq (repo : Repository) (st : State) :
  scan_repository env s repo st =
  let st1 := {| clock := S (clock st);
                trace := trace st ++ [EvSearchCode (FullName repo) (code_query s repo)] |} in
  match Search_Code env (clock st) (code_query s repo) with
  | None => (None, st1)
  | Some files =>
      let (u, st2) := scan_files env s repo files false st1 in
      (Some {| name := FullName repo; used := u; stars := StargazersCount repo |}, st2)
  end.
Proof.
  unfold scan_repository, bind at 1, call_Search_Code, bind at 1, emit, tick.
  cbn [clock trace].
  destruct (Search_Code _ _ _) as [files|]; [|done].
  unfold bind, ret. by destruct (scan_files _ _ _ _ _ _).
Qed.

(** What one inspection leaves in the trace, and what it returns. *)
Lemma scan_repository_spec (repo : Repository) (st : State)
    (o : option repoResult) (st' : State) :
  scan_repository env s repo st = (o, st') →
  ∃ evs,
    trace st' = trace st ++ EvSearchCode (FullName repo) (code_query s repo) :: evs
    ∧ (clock st < clock st')%nat
    ∧ Forall (λ e, ev_repo e = Some (FullName repo) ∧ is_scan_event e = true) evs
    ∧ match o with
      | None => Search_Code env (clock st) (code_query s repo) = None
      | Some r =>
          name r = FullName repo ∧ stars r = StargazersCount repo
          ∧ (∃ files, Search_Code env (clock st) (code_query s repo) = Some files
                      ∧ downloads evs = map (λ f, (FullName repo, Path f)) files)
          ∧ (used r = true ↔
             ∃ path f require,
               In (EvParse (FullName repo) path (Some f)) evs ∧
               In require (Requires f) ∧ direct_match (packageName s) require)
      end.
Proof.
  rewrite scan_repository_eq. cbn zeta.
  destruct (Search_Code _ _ _) as [files|].
  - destruct (scan_files _ _ _ _ _ _) as [u st2] eqn:Hscan. intros [= <- <-].
    apply scan_files_spec in Hscan as (evs & Htr & Hclk & Hall & Hdl & Hu).
    cbn [clock trace] in Htr, Hclk. exists evs.
    rewrite Htr, <- app_assoc. repeat split; try done; try lia.
    + by exists files.
    + cbn [used]. intros H. apply Hu in H as [H|H]; done.
    + cbn [used]. intros H. apply Hu. by right.
  - intros [= <- <-]. exists []. cbn [clock trace]. repeat split; try done. lia.
Qed.

(** One iteration of the loop over the repositories of a page. *)
Lemma searchInRepositories_from_cons (repo : Repository) (rest : list Repository)
    (results : gmap string repoResult) (st : State) :
  searchInRepositories_from env s (repo :: rest) results st =
  match ctx_Err env (clock st) with
  | Some Canceled => ((results, None), tick st)
  | Some e => ((results, Some (ErrContext e)), tick st)
  | None =>
      if Archived repo || Disabled repo || Fork repo
      then searchInRepositories_from env s rest results (tick st)
      else
        match cache s !! FullName repo with
        | Some _ => searchInRepositories_from env s rest results (tick st)
        | None =>
            match scan_repository env s repo (tick st) with
            | (None, st1) => searchInRepositories_from env s rest results st1
            | (Some r, st1) =>
                searchInRepositories_from env s rest (<[FullName repo := r]> results)
                  {| clock := S (clock st1);
                     trace := trace st1 ++ [EvSleep (searchDelay s)] |}
            end
        end
  end.
Proof.
  cbn [searchInRepositories_from]. unfold bind at 1, poll.
  destruct (ctx_Err env (clock st)) as [[]|]; [done|done|].
  destruct (Archived repo || Disabled repo || Fork repo); [done|].
  destruct (cache s !! FullName repo); [done|].
  unfold bind at 1. destruct (scan_repository _ _ _ _) as [[r|] st1]; [|done].
  unfold bind at 1, sleepWithContext, bind at 1, emit, tick. done.
Qed.

(** What a page scan leaves in the trace and in its result: only
    inspection events of repositories that are not cached; every entry
    it adds is the result of one completed inspection of a repository of
    the page; an error is the error of the context, which has ended. *)
Lemma searchInRepositories_from_spec (repos : list Repository)
    (results : gmap string repoResult) (st : State)
    (res : gmap string repoResult) (err : option error) (st' : State) :
  searchInRepositories_from env s repos results st = ((res, err), st') →
  ∃ evs,
    trace st' = trace st ++ evs
    ∧ (clock st <= clock st')%nat
    ∧ Forall (λ e, is_scan_event e = true ∧
                   ∀ k, ev_repo e = Some k → cache s !! k = None) evs
    ∧ (∀ k r, res !! k = Some r →
         results !! k = Some r ∨
         (cache s !! k = None ∧
          ∃ repo st1 st1',
            In repo repos ∧ FullName repo = k ∧
            scan_repository env s repo st1 = (Some r, st1')))
    ∧ (∀ e, err = Some e →
         ∃ c, e = ErrContext c ∧ c ≠ Canceled ∧ ctx_Err env (clock st') = Some c).
Proof.
  revert results st res err st'.
  induction repos as [|repo rest IH]; intros results st res err st' Hrun.
  - simpl in Hrun. injection Hrun as <- <- <-. exists []. rewrite app_nil_r.
    split_and!; auto; by intros e [=].
  - rewrite searchInRepositories_from_cons in Hrun.
    destruct (ctx_Err env (clock st)) as [[]|] eqn:Hctx.
    + injection Hrun as <- <- <-. exists []. rewrite app_nil_r.
      split_and!; simpl; auto; try lia; by intros e [=].
    + injection Hrun as <- <- <-. exists []. rewrite app_nil_r.
      split_and!; simpl; auto; try lia.
      intros e [= <-]. exists DeadlineExceeded. split_and!; [done|done|].
      eapply ctx_Err_mono; [exact Hctx|simpl; lia].
    + assert (Hskip : ∀ res err st',
                searchInRepositories_from env s rest results (tick st) = ((res, err), st') →
                ∃ evs,
                  trace st' = trace st ++ evs
                  ∧ (clock st <= clock st')%nat
                  ∧ Forall (λ e, is_scan_event e = true ∧
                                 ∀ k, ev_repo e = Some k → cache s !! k = None) evs
                  ∧ (∀ k r, res !! k = Some r →
                       results !! k = Some r ∨
                       (cache s !! k = None ∧
                        ∃ repo0 st1 st1',
                          In repo0 (repo :: rest) ∧ FullName repo0 = k ∧
                          scan_repository env s repo0 st1 = (Some r, st1')))
                  ∧ (∀ e, err = Some e →
                       ∃ c, e = ErrContext c ∧ c ≠ Canceled ∧
                            ctx_Err env (clock st') = Some c)).
      { intros res0 err0 st0' H0.
        apply IH in H0 as (evs & Htr & Hclk & Hall & Hent & Herr).
        cbn [clock trace tick] in Htr, Hclk. exists evs.
        split_and!; [done|lia|done| |done].
        intros k r Hk. apply Hent in Hk as [Hk|(Hc & r0 & a & b & Hin & Hrest)];
          [by left|right]. split; [done|]. exists r0, a, b. split; [by right|done]. }
      destruct (Archived repo || Disabled repo || Fork repo); [by apply Hskip|].
      destruct (cache s !! FullName repo) eqn:Hcache; [by apply Hskip|].
      destruct (scan_repository env s repo (tick st)) as [[r0|] st1] eqn:Hscan.
      * pose proof Hscan as Hscan'.
        apply scan_repository_spec in Hscan' as (evs1 & Htr1 & Hclk1 & Hall1 & _).
        apply IH in Hrun as (evs2 & Htr2 & Hclk2 & Hall2 & Hent & Herr).
        cbn [clock trace tick] in Htr1, Hclk1, Htr2, Hclk2.
        exists ((EvSearchCode (FullName repo) (code_query s repo) :: evs1) ++
                EvSleep (searchDelay s) :: evs2).
        split_and!.
        -- rewrite Htr2, Htr1. by rewrite <- !app_assoc.
        -- lia.
        -- apply Forall_app. split; [|constructor; [by split|done]].
           constructor; [split; [done|]; by intros k [= <-]|].
           eapply Forall_impl; [exact Hall1|]. simpl. intros e [He1 He2].
           split; [done|]. intros k Hk. congruence.
        -- intros k r Hk.
           apply Hent in Hk as [Hk|(Hc & r1 & a & b & Hin & Hrest)].
           ++ destruct (decide (FullName repo = k)) as [<-|Hne].
              ** rewrite lookup_insert_eq in Hk. injection Hk as <-.
                 right. split; [done|]. exists repo, (tick st), st1.
                 split; [by left|done].
              ** rewrite lookup_insert_ne in Hk by done. by left.
           ++ right. split; [done|]. exists r1, a, b. split; [by right|done].
        -- done.
      * apply scan_repository_spec in Hscan as (evs1 & Htr1 & Hclk1 & Hall1 & _).
        apply IH in Hrun as (evs2 & Htr2 & Hclk2 & Hall2 & Hent & Herr).
        cbn [clock trace tick] in Htr1, Hclk1, Htr2, Hclk2.
        exists ((EvSearchCode (FullName repo) (code_query s repo) :: evs1) ++ evs2).
        split_and!.
        -- rewrite Htr2, Htr1. by rewrite <- !app_assoc.
        -- lia.
        -- apply Forall_app. split; [|done].
           constructor; [split; [done|]; by intros k [= <-]|].
           eapply Forall_impl; [exact Hall1|]. simpl. intros e [He1 He2].
           split; [done|]. intros k Hk. congruence.
        -- intros k r Hk.
           apply Hent in Hk as [Hk|(Hc & r1 & a & b & Hin & Hrest)]; [by left|].
           right. split; [done|]. exists r1, a, b. split; [by right|done].
        -- done.
Qed.

(** ** The paginated search *)

(** One iteration of the loop of [Search]. *)
Lemma Search_S (fuel : nat) (query : string) (page : Z)
    (results : gmap string repoResult) (st : State) :
  Search env s (S fuel) query page results st =
  match ctx_Err env (clock st) with
  | Some Canceled => (Some (results, None), tick st)
  | Some e => (Some (results, Some (ErrContext e)), tick st)
  | None =>
      match Search_Repositories env (S (clock st)) query page with
      | None => (Some (results, Some ErrSearchRepositories), after_fetch st query page)
      | Some (repos, NextPage) =>
          match searchInRepositories env s repos (after_fetch st query page) with
          | ((_, Some err), st2) =>
              Search env s fuel query page results
                {| clock := clock st2; trace := trace st2 ++ [EvLogScanError err] |}
          | ((repoSearchResults, None), st2) =>
              if NextPage =? 0
              then Search env s fuel query page
                     (range_update (map_to_list repoSearchResults) results) st2
              else Search env s fuel query NextPage
                     (range_update (map_to_list repoSearchResults) results)
                     {| clock := S (clock st2);
                        trace := trace st2 ++ [EvSleep (paginationDelay s)] |}
          end
      end
  end.
Proof.
  cbn [Search]. unfold bind at 1, poll.
  destruct (ctx_Err env (clock st)) as [[]|]; [done|done|].
  unfold bind at 1, call_Search_Repositories, bind at 1, emit, tick.
  cbn [clock trace]. fold (after_fetch st query page).
  destruct (Search_Repositories _ _ _ _) as [[repos NextPage]|]; [|done].
  unfold bind at 1.
  destruct (searchInRepositories _ _ _ _) as [[rsr [err|]] st2]; [done|].
  destruct (NextPage =? 0); [done|].
  unfold bind at 1, sleepWithContext, bind at 1, emit, tick. done.
Qed.

Lemma search_calls_app (evs1 evs2 : list Event) :
  search_calls (evs1 ++ evs2) = search_calls evs1 ++ search_calls evs2.
Proof.
  induction evs1 as [|e evs1 IH]; [done|]. destruct e; simpl; by rewrite IH.
Qed.

Lemma search_calls_scan_events (evs : list Event) :
  Forall (λ e, is_scan_event e = true) evs → search_calls evs = [].
Proof. induction 1 as [|e evs He _ IH]; [done|]. by destruct e. Qed.

(** What a [Search] that returns leaves in the trace and in its result:
    no inspection event of a cached repository, and no entry that is not
    the result of one completed inspection of a repository outside the
    cache. *)
Lemma Search_spec (fuel : nat) (query : string) (page : Z)
    (results : gmap string repoResult) (st : State)
    (o : option (gmap string repoResult * option error)) (st' : State) :
  Search env s fuel query page results st = (o, st') →
  ∃ evs,
    trace st' = trace st ++ evs
    ∧ Forall (λ e, ∀ k, ev_repo e = Some k → cache s !! k = None) evs
    ∧ (∀ res err k r, o = Some (res, err) → res !! k = Some r →
         results !! k = Some r ∨
         (cache s !! k = None ∧
          ∃ repo st1 st1',
            FullName repo = k ∧ scan_repository env s repo st1 = (Some r, st1'))).
Proof.
  revert page results st.
  induction fuel as [|fuel IH]; intros page results st Hrun.
  - simpl in Hrun. injection Hrun as <- <-. exists []. rewrite app_nil_r.
    split_and!; [done|done|]. by intros res err k r [=].
  - rewrite Search_S in Hrun.
    destruct (ctx_Err env (clock st)) as [[]|] eqn:Hctx.
    + injection Hrun as <- <-. exists []. rewrite app_nil_r.
      split_and!; [done|done|]. intros res err k r [= <- <-] Hk. by left.
    + injection Hrun as <- <-. exists []. rewrite app_nil_r.
      split_and!; [done|done|]. intros res err k r [= <- <-] Hk. by left.
    + destruct (Search_Repositories _ _ _ _) as [[repos NextPage]|].
      2:{ injection Hrun as <- <-. exists [EvSearchRepositories query page].
          split_and!; [done|by repeat constructor|].
          intros res err k r [= <- <-] Hk. by left. }
      destruct (searchInRepositories _ _ _ _) as [[rsr err0] st2] eqn:Hscan.
      apply searchInRepositories_from_spec in Hscan
        as (evs1 & Htr1 & _ & Hall1 & Hent1 & _).
      cbn [trace after_fetch] in Htr1.
      assert (Hall1' : Forall (λ e, ∀ k, ev_repo e = Some k → cache s !! k = None)
                         (EvSearchRepositories query page :: evs1)).
      { constructor; [done|]. eapply Forall_impl; [exact Hall1|].
        simpl. by intros e [_ He]. }
      assert (Hmerge : ∀ k r,
                range_update (map_to_list rsr) results !! k = Some r →
                results !! k = Some r ∨
                (cache s !! k = None ∧
                 ∃ repo st1 st1',
                   FullName repo = k ∧
                   scan_repository env s repo st1 = (Some r, st1'))).
      { intros k r Hk.
        rewrite (range_update_ranges_over rsr) in Hk by (unfold ranges_over; done).
        apply lookup_union_Some_raw in Hk as [Hk|[_ Hk]]; [|by left].
        apply Hent1 in Hk as [Hk|(Hc & repo & a & b & _ & Hrest)];
          [by rewrite lookup_empty in Hk|].
        right. split; [done|]. by exists repo, a, b. }
      destruct err0 as [err0|]; [|destruct (NextPage =? 0)];
        apply IH in Hrun as (evs2 & Htr2 & Hall2 & Hent2);
        cbn [trace] in Htr2.
      * exists ((EvSearchRepositories query page :: evs1) ++
                EvLogScanError err0 :: evs2).
        split_and!.
        -- rewrite Htr2, Htr1. by rewrite <- !app_assoc.
        -- apply Forall_app. split; [done|]. by constructor.
        -- done.
      * exists ((EvSearchRepositories query page :: evs1) ++ evs2).
        split_and!.
        -- rewrite Htr2, Htr1. by rewrite <- !app_assoc.
        -- apply Forall_app. by split.
        -- intros res err k r Ho Hk.
           destruct (Hent2 res err k r Ho Hk) as [H|H]; [by apply Hmerge|by right].
      * exists ((EvSearchRepositories query page :: evs1) ++
                EvSleep (paginationDelay s) :: evs2).
        split_and!.
        -- rewrite Htr2, Htr1. by rewrite <- !app_assoc.
        -- apply Forall_app. split; [done|]. by constructor.
        -- intros res err k r Ho Hk.
           destruct (Hent2 res err k r Ho Hk) as [H|H]; [by apply Hmerge|by right].
Qed.

(** A scan whose context is found cancelled after a prefix of the page
    stops there, whatever follows in the page. *)
Lemma searchInRepositories_from_cancelled (pre : list Repository)
    (r : Repository) (post : list Repository)
    (results : gmap string repoResult) (st : State)
    (res : gmap string repoResult) (e : option error) (st_pre : State) :
  searchInRepositories_from env s pre results st = ((res, e), st_pre) →
  ctx_Err env (clock st_pre) = Some Canceled →
  ∃ st', searchInRepositories_from env s (pre ++ r :: post) results st
           = ((res, None), st')
         ∧ trace st' = trace st_pre.
Proof.
  revert results st.
  induction pre as [|a pre IH]; intros results st Hrun Hcancel.
  - simpl in Hrun. injection Hrun as <- <- <-.
    rewrite app_nil_l, searchInRepositories_from_cons, Hcancel.
    by exists (tick st).
  - rewrite <- app_comm_cons, searchInRepositories_from_cons.
    rewrite searchInRepositories_from_cons in Hrun.
    destruct (ctx_Err env (clock st)) as [[]|] eqn:Hctx.
    + injection Hrun as <- <- <-. by exists (tick st).
    + injection Hrun as <- <- <-. exfalso.
      rewrite (ctx_Err_mono env (clock st) (clock (tick st)) DeadlineExceeded)
        in Hcancel; [done|done|simpl; lia].
    + destruct (Archived a || Disabled a || Fork a); [by apply IH|].
      destruct (cache s !! FullName a); [by apply IH|].
      destruct (scan_repository env s a (tick st)) as [[r0|] st1]; by apply IH.
Qed.

(** While the context lasts, a page scan does not fail. *)
Lemma searchInRepositories_no_error (repos : list Repository) (st : State)
    (res : gmap string repoResult) (err : option error) (st' : State) :
  ctx_end env = None →
  searchInRepositories env s repos st = ((res, err), st') → err = None.
Proof.
  intros Hnever Hrun.
  apply searchInRepositories_from_spec in Hrun as (_ & _ & _ & _ & _ & Herr).
  destruct err as [e|]; [|done].
  destruct (Herr e eq_refl) as (c & _ & _ & Hc).
  by rewrite ctx_Err_never in Hc.
Qed.

(** With a context that lasts and a repository search that reports no
    next page, every iteration of [Search] ends in the [break] of line
    245, and the loop goes on with the same page. *)
Lemma Search_last_page_loops (query : string) (fuel : nat) (page : Z)
    (results : gmap string repoResult) (st : State) :
  ctx_end env = None →
  (∀ t p, ∃ repos, Search_Repositories env t query p = Some (repos, 0)) →
  ∃ st', Search env s fuel query page results st = (None, st')
         ∧ search_calls (trace st') =
           search_calls (trace st) ++ repeat (query, page) fuel.
Proof.
  intros Hnever Hlast. revert results st.
  induction fuel as [|fuel IH]; intros results st.
  - exists st. simpl. by rewrite app_nil_r.
  - rewrite Search_S, ctx_Err_never by done.
    destruct (Hlast (S (clock st)) page) as [repos ->].
    destruct (searchInRepositories _ _ _ _) as [[rsr err] st2] eqn:Hscan.
    rewrite (searchInRepositories_no_error _ _ _ _ _ Hnever Hscan).
    apply searchInRepositories_from_spec in Hscan as (evs & Htr & _ & Hall & _).
    cbn [trace after_fetch] in Htr. rewrite Z.eqb_refl.
    destruct (IH (range_update (map_to_list rsr) results) st2) as (st' & -> & Hcalls).
    exists st'. split; [done|].
    rewrite Hcalls, Htr, !search_calls_app.
    rewrite (search_calls_scan_events evs), app_nil_r.
    + simpl. by rewrite <- app_assoc.
    + eapply Forall_impl; [exact Hall|]. simpl. by intros e [He _].
Qed.

(** A page scan that fails sends [Search] back to the head of its loop,
    where the context, which has ended, ends the search. *)
Lemma Search_scan_failure (fuel : nat) (query : string) (page : Z)
    (results : gmap string repoResult) (st : State)
    (repos : list Repository) (NextPage : Z)
    (rsr : gmap string repoResult) (err : error) (st2 : State) :
  ctx_Err env (clock st) = None →
  Search_Repositories env (S (clock st)) query page = Some (repos, NextPage) →
  searchInRepositories env s repos (after_fetch st query page)
    = ((rsr, Some err), st2) →
  err = ErrContext DeadlineExceeded ∧
  Search env s (S (S fuel)) query page results st =
    (Some (results, Some err),
     {| clock := S (clock st2); trace := trace st2 ++ [EvLogScanError err] |}).
Proof.
  intros Hctx Hfetch Hscan. rewrite Search_S, Hctx, Hfetch, Hscan.
  apply searchInRepositories_from_spec in Hscan as (_ & _ & _ & _ & _ & Herr).
  destruct (Herr err eq_refl) as (c & -> & Hc & Hdone).
  destruct c; [done|]. split; [done|].
  rewrite Search_S. cbn [clock]. by rewrite Hdone.
Qed.

End PipelineFacts.

(** ** The code against the wording of the specification *)





Lemma spec_file_events_parse (env : Env) (repo : Repository) (t : nat)
    (files : list CodeResult) (i : nat) (file : CodeResult)
    (reader : Reader) (bb : string) :
  files !! i = Some file →
  DownloadContents env (t + i) (OwnerLogin repo) (RepoName repo) (Path file)
    = Some reader →
  contents reader = Some bb →
  close_ok reader = true →
  In (EvParse (FullName repo) (Path file) (modfile_Parse env bb))
     (spec_file_events env repo t files).
Proof.
  revert t i. induction files as [|f rest IH]; intros t i Hi Hd Hc Hcl; [done|].
  destruct i as [|i]; simpl in Hi.
  - injection Hi as ->. rewrite Nat.add_0_r in Hd. simpl.
    rewrite Hd, Hc, Hcl. right. by left.
  - simpl. right. apply in_or_app. right.
    apply (IH (S t) i Hi); [|done|done]. by rewrite Nat.add_succ_comm.
Qed.

Section AgainstTheSpec.

Variable env : Env.
Variable s : searchResult.

(** The calls of the loop over the files are those of the wording,
    whatever the files have shown: they do not depend on the flag. *)
Lemma scan_files_trace (repo : Repository) (files : list CodeResult)
    (used0 : bool) (st : State) (u : bool) (st' : State) :
  scan_files env s repo files used0 st = (u, st') →
  trace st' = trace st ++ spec_file_events env repo (clock st) files
  ∧ clock st' = (clock st + length files)%nat.
Proof.
  revert used0 st. induction files as [|file rest IH]; intros used0 st Hrun.
  - simpl in Hrun. injection Hrun as <- <-. simpl. rewrite app_nil_r. split; [done|lia].
  - rewrite scan_files_cons in Hrun. cbn zeta in Hrun. cbn [spec_file_events].
    destruct (DownloadContents _ _ _ _ _) as [reader|];
      [destruct (contents reader) as [bb|];
       [destruct (close_ok reader); cbn [negb] in Hrun;
        [destruct (modfile_Parse env bb) as [f|]|]|]|];
      apply IH in Hrun as [Htr Hclk]; cbn [clock trace] in Htr, Hclk;
      rewrite Htr, Hclk; cbn [length]; rewrite <- ?app_assoc; split; (done || lia).
Qed.



End AgainstTheSpec.

(** ** The claims about the pipeline *)



(** The repository of the specification whose manifests require the
    package only indirectly. *)
Example indirect_only_is_not_used :
  (scan_repository (github None [repo1] 0 indirect_manifest)
     (newSearchResult widget ∅) repo1 st0).1
  = Some {| name := "org/repo1"; used := false; stars := 5000 |}.
Proof. vm_compute. reflexivity. Qed.

(** C8 (amended).  The inspection yields [true] as soon as one parsed
    manifest has a direct requirement of the package: the loop over the
    [require] entries of that manifest stops at the first such entry,
    and the flag, once set, stays set.  There is no short-circuit over
    the files: every file found by the code search is downloaded, in
    order, and parsed when its download, read and close succeed, also
    after a match; the calls of the inspection are the same whatever
    the files show. *)
Theorem inspection_downloads_every_file (env : Env) (s : searchResult)
    (repo : Repository) (files : list CodeResult) (used0 : bool)
    (st : State) (u : bool) (st' : State) :
  scan_files env s repo files used0 st = (u, st') →
  ∃ evs,
    trace st' = trace st ++ evs
    ∧ downloads evs = map (λ f, (FullName repo, Path f)) files
    ∧ (used0 = true → u = true)
    ∧ (∀ path f require,
         In (EvParse (FullName repo) path (Some f)) evs →
         In require (Requires f) →
         direct_match (packageName s) require → u = true)
    ∧ (∀ pre require post u0,
         direct_match (packageName s) require →
         scan_requires s (pre ++ require :: post) u0 = true)
    ∧ evs = spec_file_events env repo (clock st) files
    ∧ (∀ i file reader bb,
         files !! i = Some file →
         DownloadContents env (clock st + i) (OwnerLogin repo) (RepoName repo)
           (Path file) = Some reader →
         contents reader = Some bb →
         close_ok reader = true →
         In (EvParse (FullName repo) (Path file) (modfile_Parse env bb)) evs).
Proof.
  intros Hscan. pose proof Hscan as Hscan'.
  apply scan_files_spec in Hscan as (evs & Htr & _ & _ & Hdl & Hu).
  apply scan_files_trace in Hscan' as [Htr' _].
  rewrite Htr in Htr'. apply app_inv_head in Htr'.
  exists evs. split_and!; [done|done| | | |done|].
  - intros ->. apply Hu. by left.
  - intros path f require Hin Hreq Hm. apply Hu. right. by exists path, f, require.
  - intros pre require post u0 Hm. apply scan_requires_true_iff. right.
    exists require. split; [|done]. apply in_or_app. right. by left.
  - intros i file reader bb Hi Hd Hc Hcl. rewrite Htr'.
    by eapply spec_file_events_parse.
Qed.

Lemma inspection_downloads_every_file_witness :
  let env := github None [repo1] 0 direct_manifest in
  let s := newSearchResult widget ∅ in
  ∃ st', scan_files env s repo1 [gomod; sub_gomod] false st0 = (true, st')
         ∧ downloads (trace st') = [("org/repo1", "go.mod"); ("org/repo1", "sub/go.mod")]
         ∧ In (EvParse "org/repo1" "sub/go.mod" (parse_manifest direct_manifest))
              (trace st').
Proof.
  intros env s.
  destruct (scan_files env s repo1 [gomod; sub_gomod] false st0) as [u st'] eqn:Hrun.
  assert (Hu : u = true).
  { apply (f_equal fst) in Hrun. vm_compute in Hrun. by symmetry. }
  subst u. exists st'. split; [reflexivity|].
  destruct (inspection_downloads_every_file env s repo1 _ false st0 true st' Hrun)
    as (evs & Htr & Hdl & _ & _ & _ & _ & Hparse).
  rewrite Htr. split; [exact Hdl|].
  exact (Hparse 1%nat sub_gomod {| contents := Some direct_manifest; close_ok := true |}
           direct_manifest eq_refl eq_refl eq_refl eq_refl).
Defined.

(** C8, as the specification states it, fails: the first manifest has
    the direct requirement, and the second one is downloaded and parsed
    all the same. *)
Lemma inspection_does_not_stop_at_first_match :
  let env := github None [repo1] 0 direct_manifest in
  let s := newSearchResult widget ∅ in
  let direct := {| Requires := [ {| ModPath := "acme/widget"; ModVersion := "v1.2.0";
                                    Indirect := false |} ] |} in
  scan_files env s repo1 [gomod; sub_gomod] false st0
  = (true,
     {| clock := 2;
        trace := [ EvDownloadContents "org/repo1" "go.mod";
                   EvParse "org/repo1" "go.mod" (Some direct);
                   EvDownloadContents "org/repo1" "sub/go.mod";
                   EvParse "org/repo1" "sub/go.mod" (Some direct) ] |})
  ∧ scan_files env s repo1 [gomod] false st0
    = (true,
       {| clock := 1;
          trace := [ EvDownloadContents "org/repo1" "go.mod";
                     EvParse "org/repo1" "go.mod" (Some direct) ] |}).
Proof. intros env s direct. split; vm_compute; reflexivity. Qed.



(** C2.  A repository [k] that the loaded cache contains keeps its cached
    result through a run: the run inspects nothing of [k] (no code
    search, download or parse for it), its entry in the merged mapping
    is the cached one, and the merge at the top level, with whatever the
    search returns and in whatever order the runtime enumerates it,
    leaves the cached entry in place and only adds keys. *)
Theorem cached_entry_unchanged_by_rescan (env : Env) (fuel : nat) (pkg : string)
    (records : list (list string)) (M : gmap string repoResult)
    (k : string) (v : repoResult)
    (merged : gmap string repoResult) (st st' : State) :
  load records ∅ = Ok M →
  M !! k = Some v →
  run env fuel pkg records st = (Some (Ok merged), st') →
  merged !! k = Some v
  ∧ (∃ evs, trace st' = trace st ++ evs ∧ Forall (λ e, ev_repo e ≠ Some k) evs)
  ∧ (∀ (newResults : gmap string repoResult) entries,
       ranges_over newResults entries →
       range_merge entries M !! k = Some v
       ∧ dom (range_merge entries M) = dom M ∪ dom newResults).
Proof.
  intros Hload Hk Hrun. unfold run in Hrun. rewrite Hload in Hrun.
  unfold bind in Hrun.
  destruct (Search _ _ _ _ _ _ _) as [o st1] eqn:Hsearch.
  destruct o as [[newResults [err|]]|]; [done| |done].
  injection Hrun as <- <-.
  apply Search_spec in Hsearch as (evs & Htr & Hall & _).
  split_and!.
  - rewrite (range_merge_ranges_over newResults) by (unfold ranges_over; done).
    by apply lookup_union_Some_l.
  - exists evs. split; [done|]. eapply Forall_impl; [exact Hall|].
    simpl. intros e He Hrepo. apply He in Hrepo. simpl in Hrepo. congruence.
  - intros newResults' entries Hent.
    rewrite (range_merge_ranges_over newResults') by done.
    split; [by apply lookup_union_Some_l | by rewrite dom_union_L].
Qed.

Lemma cached_entry_unchanged_by_rescan_witness :
  let env := github (Some (8%nat, Canceled)) [repo1; repo2] 0 direct_manifest in
  let records := [["org/repo1"; "false"; "4900"]] in
  let cached := {| name := "org/repo1"; used := false; stars := 4900 |} in
  ∃ merged st',
    load records ∅ = Ok {[ "org/repo1" := cached ]}
    ∧ run env 5 widget records st0 = (Some (Ok merged), st')
    ∧ merged !! "org/repo1" = Some cached
    ∧ merged !! "org/repo2"
      = Some {| name := "org/repo2"; used := true; stars := 4000 |}
    ∧ Forall (λ e, ev_repo e ≠ Some "org/repo1") (trace st').
Proof.
  intros env records cached.
  assert (Hload : load records ∅ = Ok {[ "org/repo1" := cached ]}).
  { simpl. f_equal. }
  destruct (run env 5 widget records st0) as [o st'] eqn:Hrun.
  destruct o as [[merged| |]|] eqn:Ho;
    try (apply (f_equal fst) in Hrun; vm_compute in Hrun; discriminate Hrun).
  assert (H2 : merged !! "org/repo2"
               = Some {| name := "org/repo2"; used := true; stars := 4000 |}).
  { apply (f_equal (λ x, match x.1 with
                         | Some (Ok m) => m !! "org/repo2"
                         | _ => None
                         end)) in Hrun.
    vm_compute in Hrun. by symmetry. }
  destruct (cached_entry_unchanged_by_rescan env 5 widget records _ "org/repo1"
              cached merged st0 st' Hload (lookup_singleton_eq _ _) Hrun)
    as (H1 & (evs & Htr & Hall) & _).
  exists merged, st'. split_and!; [exact Hload|reflexivity|exact H1|exact H2|].
  rewrite Htr. exact Hall.
Defined.

(** C1 fails on the code.  When the context lasts and the repository
    search reports no next page, [Search] does not return, whatever the
    number of iterations it is given: every iteration fetches the same
    page again. *)
Theorem Search_refetches_last_page_forever (env : Env) (s : searchResult)
    (query : string) (fuel : nat) (page : Z)
    (results : gmap string repoResult) (st : State) :
  ctx_end env = None →
  (∀ t p, ∃ repos, Search_Repositories env t query p = Some (repos, 0)) →
  ∃ st', Search env s fuel query page results st = (None, st')
         ∧ search_calls (trace st') =
           search_calls (trace st) ++ repeat (query, page) fuel.
Proof. intros. by apply Search_last_page_loops. Qed.

Lemma Search_refetches_last_page_forever_witness :
  let env := github None [repo1] 0 direct_manifest in
  let s := newSearchResult widget ∅ in
  ctx_end env = None
  ∧ Search_Repositories env 1 search_query 0 = Some ([repo1], 0)
  ∧ ∃ st', Search env s 3 search_query 0 ∅ st0 = (None, st')
           ∧ search_calls (trace st') =
             [(search_query, 0); (search_query, 0); (search_query, 0)].
Proof.
  intros env s. split; [reflexivity|]. split; [reflexivity|].
  apply (Search_refetches_last_page_forever env s search_query 3 0 ∅ st0).
  - reflexivity.
  - intros t p. by exists [repo1].
Defined.

(** C7 (amended).  When the scan of a fetched page fails, [Search] logs
    the failure, merges nothing of that page, and goes back to the head
    of its loop.  A scan fails only with the error of a context that has
    ended otherwise than by cancellation, so the check at the head of
    the loop ends the search: it returns the results accumulated before
    that page together with that error, and no page is fetched any
    more. *)
Theorem failed_scan_ends_search_with_context_error (env : Env) (s : searchResult)
    (fuel : nat) (query : string) (page : Z)
    (results : gmap string repoResult) (st : State)
    (repos : list Repository) (NextPage : Z)
    (rsr : gmap string repoResult) (err : error) (st2 : State) :
  ctx_Err env (clock st) = None →
  Search_Repositories env (S (clock st)) query page = Some (repos, NextPage) →
  searchInRepositories env s repos (after_fetch st query page)
    = ((rsr, Some err), st2) →
  err = ErrContext DeadlineExceeded
  ∧ Search env s (S (S fuel)) query page results st =
      (Some (results, Some err),
       {| clock := S (clock st2); trace := trace st2 ++ [EvLogScanError err] |})
  ∧ search_calls (trace st2 ++ [EvLogScanError err]) =
      search_calls (trace st) ++ [(query, page)].
Proof.
  intros Hctx Hfetch Hscan.
  destruct (Search_scan_failure env s fuel query page results st repos NextPage
              rsr err st2 Hctx Hfetch Hscan) as [Herr Hrun].
  split_and!; [done|done|].
  apply searchInRepositories_from_spec in Hscan as (evs & Htr & _ & Hall & _).
  cbn [trace after_fetch] in Htr.
  rewrite Htr, !search_calls_app, (search_calls_scan_events evs).
  - simpl. by rewrite !app_nil_r.
  - eapply Forall_impl; [exact Hall|]. simpl. by intros e [He _].
Qed.

Lemma failed_scan_ends_search_with_context_error_witness :
  let env := github (Some (3%nat, DeadlineExceeded)) [repo_old; repo1] 2
               direct_manifest in
  let s := newSearchResult widget ∅ in
  ∃ st2,
    ctx_Err env (clock st0) = None
    ∧ searchInRepositories env s [repo_old; repo1] (after_fetch st0 search_query 0)
      = ((∅, Some (ErrContext DeadlineExceeded)), st2)
    ∧ Search env s 2 search_query 0 ∅ st0 =
        (Some (∅, Some (ErrContext DeadlineExceeded)),
         {| clock := S (clock st2);
            trace := trace st2 ++ [EvLogScanError (ErrContext DeadlineExceeded)] |}).
Proof.
  intros env s.
  destruct (searchInRepositories env s [repo_old; repo1]
              (after_fetch st0 search_query 0)) as [[rsr err] st2] eqn:Hscan.
  assert (Herr : err = Some (ErrContext DeadlineExceeded)).
  { apply (f_equal (λ x, x.1.2)) in Hscan. vm_compute in Hscan. by symmetry. }
  assert (Hrsr : rsr = ∅).
  { apply (f_equal (λ x, x.1.1)) in Hscan. simpl in Hscan. rewrite <- Hscan.
    vm_compute. reflexivity. }
  subst err rsr. exists st2.
  destruct (failed_scan_ends_search_with_context_error env s 0 search_query 0 ∅ st0
              [repo_old; repo1] 2 ∅ _ st2 eq_refl eq_refl Hscan) as (_ & Hrun & _).
  split_and!; [reflexivity|reflexivity|exact Hrun].
Defined.

(** C7, as the specification states it, fails: the scan of page 0 fails
    while the repository search has announced page 2; the search returns
    the error of the context, the run ends with that error, page 2 is
    never fetched, and the page index has not moved. *)
Lemma failed_scan_does_not_continue_with_next_page :
  let env := github (Some (3%nat, DeadlineExceeded)) [repo_old; repo1] 2
               direct_manifest in
  let s := newSearchResult widget ∅ in
  Search_Repositories env 1 search_query 0 = Some ([repo_old; repo1], 2)
  ∧ searchInRepositories env s [repo_old; repo1] (after_fetch st0 search_query 0)
    = ((∅, Some (ErrContext DeadlineExceeded)),
       {| clock := 4; trace := [EvSearchRepositories search_query 0] |})
  ∧ Search env s 10 search_query 0 ∅ st0
    = (Some (∅, Some (ErrContext DeadlineExceeded)),
       {| clock := 5;
          trace := [ EvSearchRepositories search_query 0;
                     EvLogScanError (ErrContext DeadlineExceeded) ] |})
  ∧ (run env 10 widget [] st0).1
    = Some (Err (ErrSearching (ErrContext DeadlineExceeded))).
Proof. intros env s. split_and!; vm_compute; reflexivity. Qed.

(** ** Results are stored under their own names *)

Lemma load_names_are_keys (records : list (list string))
    (acc m : gmap string repoResult) :
  names_are_keys acc → load records acc = Ok m → names_are_keys m.
Proof.
  revert acc. induction records as [|record rest IH]; intros acc Hacc; simpl.
  - by intros [= <-].
  - destruct (record !! 2%nat); [|done]. destruct (Atoi _) as [n|]; [|done].
    destruct (record !! 0%nat) as [f0|]; [|done].
    destruct (record !! 1%nat) as [f1|]; [|done].
    apply IH. intros k r Hk.
    destruct (decide (f0 = k)) as [<-|Hne].
    + rewrite lookup_insert_eq in Hk. by injection Hk as <-.
    + rewrite lookup_insert_ne in Hk by done. by apply Hacc.
Qed.

Lemma Search_names_are_keys (env : Env) (s : searchResult) (fuel : nat)
    (query : string) (page : Z) (results : gmap string repoResult) (st : State)
    (res : gmap string repoResult) (err : option error) (st' : State) :
  names_are_keys results →
  Search env s fuel query page results st = (Some (res, err), st') →
  names_are_keys res.
Proof.
  intros Hres Hrun k r Hk.
  apply Search_spec in Hrun as (_ & _ & _ & Hent).
  destruct (Hent res err k r eq_refl Hk) as [H|(_ & repo & st1 & st1' & <- & Hscan)].
  - by apply Hres.
  - by apply scan_repository_spec in Hscan as (_ & _ & _ & _ & Hn & _).
Qed.

(** The mapping that [run] persists has every result under its own
    name, so that its rows are the rows of its entries. *)
Lemma run_names_are_keys (env : Env) (fuel : nat) (pkg : string)
    (records : list (list string)) (merged : gmap string repoResult)
    (st st' : State) :
  run env fuel pkg records st = (Some (Ok merged), st') → names_are_keys merged.
Proof.
  unfold run. destruct (load records ∅) as [M| |] eqn:Hload; [|done|done].
  unfold bind. destruct (Search _ _ _ _ _ _ _) as [[[newResults [err|]]|] st1] eqn:Hs;
    [done| |done].
  intros [= <- <-].
  rewrite (range_merge_ranges_over newResults) by (unfold ranges_over; done).
  intros k r Hk. apply lookup_union_Some_raw in Hk as [Hk|[_ Hk]].
  - eapply load_names_are_keys; [|exact Hload|exact Hk]. by intros ? ? ?.
  - eapply Search_names_are_keys; [|exact Hs|exact Hk]. by intros ? ? ?.
Qed.

(** * Further properties of the code *)

(** ** The name of the cache file *)

Lemma replace_slash_no_slash (s : string) : count_char "/" (replace_slash s) = 0%nat.
Proof.
  induction s as [|c s IH]; [done|]. simpl. rewrite IH.
  destruct (Ascii.eqb_spec c "/") as [->|Hne]; [done|].
  by destruct (Ascii.eqb_spec c "/").
Qed.

Lemma replace_slash_length (s : string) :
  String.length (replace_slash s) = String.length s.
Proof. induction s as [|c s IH]; [done|]. simpl. by rewrite IH. Qed.

Lemma replace_slash_fixed (s : string) :
  count_char "/" s = 0%nat → replace_slash s = s.
Proof.
  induction s as [|c s IH]; [done|]. simpl.
  destruct (Ascii.eqb c "/"); [done|]. intros H. by rewrite IH.
Qed.

Lemma replace_slash_changes (s : string) :
  (0 < count_char "/" s)%nat → replace_slash s ≠ s.
Proof.
  intros Hpos Heq. rewrite <- Heq, replace_slash_no_slash in Hpos. lia.
Qed.

Lemma count_char_app (c : ascii) (s1 s2 : string) :
  count_char c (s1 ++ s2)%string = (count_char c s1 + count_char c s2)%nat.
Proof. induction s1 as [|c1 s1 IH]; [done|]. simpl. rewrite IH. lia. Qed.

Lemma string_length_app (s1 s2 : string) :
  String.length (s1 ++ s2)%string = (String.length s1 + String.length s2)%nat.
Proof. induction s1 as [|c s1 IH]; [done|]. simpl. by rewrite IH. Qed.

(** The cache file lies in the directory [cache] itself: whatever the
    package name, the only slash of the file name is the one after
    [cache], and the name is ten bytes longer than the package name. *)
Theorem cache_file_directly_in_cache_dir (packageName : string) :
  count_char "/" (cache_file_name packageName) = 1%nat
  ∧ String.length (cache_file_name packageName)
    = (String.length packageName + 10)%nat.
Proof.
  unfold cache_file_name. split.
  - rewrite !count_char_app, replace_slash_no_slash. reflexivity.
  - rewrite !string_length_app, replace_slash_length. simpl. lia.
Qed.

(** Package names are not told apart by their cache files: a package
    whose name has a slash shares its cache file with the different
    package whose name has hyphens in the place of the slashes, and
    both invocations pass the check of the flags. *)
Theorem cache_file_shared_by_two_packages (packageName githubToken : string) :
  (0 < count_char "/" packageName)%nat →
  githubToken ≠ "" →
  replace_slash packageName ≠ packageName
  ∧ cache_file_of_flags (replace_slash packageName) githubToken
    = cache_file_of_flags packageName githubToken
  ∧ cache_file_of_flags packageName githubToken
    = Some (cache_file_name packageName).
Proof.
  intros Hslash Htoken. split; [by apply replace_slash_changes|].
  unfold cache_file_of_flags, cache_file_name.
  rewrite (replace_slash_fixed (replace_slash packageName))
    by apply replace_slash_no_slash.
  assert (Htok : String.eqb githubToken "" = false)
    by (by apply String.eqb_neq).
  rewrite Htok.
  assert (Hpkg : String.eqb packageName "" = false)
    by (destruct packageName; [simpl in Hslash; lia | done]).
  assert (Hpkg' : String.eqb (replace_slash packageName) "" = false)
    by (destruct packageName; [simpl in Hslash; lia | done]).
  by rewrite Hpkg, Hpkg'.
Qed.

Lemma cache_file_shared_by_two_packages_witness :
  (0 < count_char "/" "go.uber.org/zap")%nat
  ∧ cache_file_of_flags "go.uber.org-zap" "token"
    = cache_file_of_flags "go.uber.org/zap" "token"
  ∧ cache_file_of_flags "go.uber.org/zap" "token"
    = Some "cache/go.uber.org-zap.csv".
Proof.
  assert (Hslash : (0 < count_char "/" "go.uber.org/zap")%nat) by (simpl; lia).
  assert (Htoken : "token" ≠ "") by discriminate.
  split; [exact Hslash|].
  destruct (cache_file_shared_by_two_packages "go.uber.org/zap" "token"
              Hslash Htoken) as (_ & H1 & H2).
  split; [exact H1 | exact H2].
Defined.

(** ** More on loading the cache *)

Lemma Atoi_in_range (s : string) (v : Z) : Atoi s = Some v → in_int_range v = true.
Proof.
  unfold Atoi. destruct s as [|c rest]; [done|].
  destruct (if Ascii.eqb c "-" || Ascii.eqb c "+" then rest else String c rest);
    [done|].
  destruct (parse_digits _ 0) as [n|]; [|done].
  destruct (in_int_range _) eqn:Hr; [|done]. by intros [= <-].
Qed.

(** Loading a file is loading its first rows, then the rest. *)
Lemma load_app (l1 l2 : list (list string)) (acc : gmap string repoResult) :
  load (l1 ++ l2) acc =
  match load l1 acc with
  | Ok m => load l2 m
  | Err e => Err e
  | Panic => Panic
  end.
Proof.
  revert acc. induction l1 as [|record l1 IH]; intros acc; [done|].
  simpl. destruct (record !! 2%nat); [|done]. destruct (Atoi _); [|done].
  destruct (record !! 0%nat); [|done]. destruct (record !! 1%nat); [|done].
  apply IH.
Qed.

Lemma load_preserves_other (records : list (list string))
    (acc m : gmap string repoResult) (k : string) :
  load records acc = Ok m →
  Forall (λ row, row !! 0%nat ≠ Some k) records →
  m !! k = acc !! k.
Proof.
  revert acc. induction records as [|record rest IH]; intros acc Hload Hall.
  - simpl in Hload. by injection Hload as <-.
  - apply Forall_cons in Hall as [Hrow Hall]. simpl in Hload.
    destruct (record !! 2%nat); [|done]. destruct (Atoi _); [|done].
    destruct (record !! 0%nat) as [f0|]; [|done].
    destruct (record !! 1%nat); [|done].
    rewrite (IH _ Hload Hall). apply lookup_insert_ne. congruence.
Qed.

Lemma load_spec (records : list (list string)) (acc m : gmap string repoResult) :
  load records acc = Ok m →
  (∀ k r, m !! k = Some r →
     acc !! k = Some r ∨
     ∃ f1 f2 rest,
       In (k :: f1 :: f2 :: rest) records ∧
       r = row_result k f1 (stars r) ∧ Atoi f2 = Some (stars r))
  ∧ (∀ k, is_Some (acc !! k) → is_Some (m !! k))
  ∧ (∀ record, In record records →
       ∃ k, record !! 0%nat = Some k ∧ is_Some (m !! k))
  ∧ (size m <= size acc + length records)%nat.
Proof.
  revert acc. induction records as [|record rest IH]; intros acc Hload.
  - simpl in Hload. injection Hload as <-. split_and!; [by left|done|done|].
    simpl. lia.
  - simpl in Hload.
    destruct record as [|f0 [|f1 [|f2 more]]]; [done|done|done|].
    cbn [lookup list_lookup] in Hload.
    destruct (Atoi f2) as [n|] eqn:Hatoi; [|done].
    apply IH in Hload as (Hent & Hkeep & Hrows & Hsize). split_and!.
    + intros k r Hk. destruct (Hent k r Hk) as [Hacc|(g1 & g2 & rest' & Hin & Hr)].
      * destruct (decide (f0 = k)) as [<-|Hne].
        -- rewrite lookup_insert_eq in Hacc. injection Hacc as <-.
           right. exists f1, f2, more. split_and!; [by left|done|done].
        -- rewrite lookup_insert_ne in Hacc by done. by left.
      * right. exists g1, g2, rest'. split; [by right|done].
    + intros k Hk. apply Hkeep. destruct (decide (f0 = k)) as [<-|Hne].
      * rewrite lookup_insert_eq. eauto.
      * by rewrite lookup_insert_ne.
    + intros record [<-|Hin]; [|by apply Hrows].
      exists f0. split; [done|]. apply Hkeep. rewrite lookup_insert_eq. eauto.
    + rewrite map_size_insert in Hsize. simpl.
      destruct (acc !! f0); simpl in Hsize; lia.
Qed.

(** Every result of a loaded cache is the reading of one row of the
    file: it is stored under the first field, [used] says whether the
    second field is exactly [true], and the star count is the reading of
    the third field, within the range of [int]; every row has its
    repository in the cache, which has at most as many entries as the
    file has rows. *)
Theorem load_entries_are_rows (records : list (list string))
    (m : gmap string repoResult) :
  load records ∅ = Ok m →
  (∀ k r, m !! k = Some r →
     ∃ f1 f2 rest,
       In (k :: f1 :: f2 :: rest) records ∧
       r = row_result k f1 (stars r) ∧ Atoi f2 = Some (stars r) ∧
       in_int_range (stars r) = true)
  ∧ (∀ record, In record records →
       ∃ k, record !! 0%nat = Some k ∧ is_Some (m !! k))
  ∧ (size m <= length records)%nat.
Proof.
  intros Hload. apply load_spec in Hload as (Hent & _ & Hrows & Hsize).
  split_and!; [|done|by rewrite map_size_empty in Hsize].
  intros k r Hk. destruct (Hent k r Hk) as [Hempty|(f1 & f2 & rest & Hin & Hr & Ha)].
  - by rewrite lookup_empty in Hempty.
  - exists f1, f2, rest. split_and!; [done|done|done|].
    by eapply Atoi_in_range.
Qed.

Lemma load_entries_are_rows_witness :
  ∃ m, load [["org/a"; "true"; "5000"]; ["org/b"; "TRUE"; "+70"]] ∅ = Ok m
       ∧ (size m <= 2)%nat
       ∧ ∀ k r, m !! k = Some r → in_int_range (stars r) = true.
Proof.
  destruct (load [["org/a"; "true"; "5000"]; ["org/b"; "TRUE"; "+70"]] ∅)
    as [m| |] eqn:Hload; try (vm_compute in Hload; discriminate Hload).
  exists m. destruct (load_entries_are_rows _ m Hload) as (Hent & _ & Hsize).
  split_and!; [reflexivity|exact Hsize|].
  intros k r Hk. destruct (Hent k r Hk) as (f1 & f2 & rest & _ & _ & _ & Hr).
  exact Hr.
Defined.

(** When a repository has several rows in the cache file, the last one
    decides. *)
Theorem load_last_row_wins (records later : list (list string))
    (k f1 f2 : string) (rest : list string) (m : gmap string repoResult) :
  load (records ++ (k :: f1 :: f2 :: rest) :: later) ∅ = Ok m →
  Forall (λ row, row !! 0%nat ≠ Some k) later →
  ∃ n, Atoi f2 = Some n ∧ m !! k = Some (row_result k f1 n).
Proof.
  intros Hload Hlater. rewrite load_app in Hload.
  destruct (load records ∅) as [m1| |]; [|done|done].
  cbn [load lookup list_lookup] in Hload.
  destruct (Atoi f2) as [n|]; [|done]. exists n. split; [done|].
  rewrite (load_preserves_other _ _ _ _ Hload Hlater).
  apply lookup_insert_eq.
Qed.

Lemma load_last_row_wins_witness :
  ∃ m, load ([["org/a"; "false"; "10"]] ++ ["org/a"; "true"; "5000"]
               :: [["org/b"; "false"; "7"]]) ∅ = Ok m
       ∧ m !! "org/a" = Some (row_result "org/a" "true" 5000).
Proof.
  destruct (load ([["org/a"; "false"; "10"]] ++ ["org/a"; "true"; "5000"]
                    :: [["org/b"; "false"; "7"]]) ∅)
    as [m| |] eqn:Hload; try (vm_compute in Hload; discriminate Hload).
  exists m. split; [reflexivity|].
  destruct (load_last_row_wins [["org/a"; "false"; "10"]] [["org/b"; "false"; "7"]]
              "org/a" "true" "5000" [] m Hload) as (n & Hn & Hm).
  - repeat constructor; discriminate.
  - by injection Hn as <-.
Defined.

(** ** Reading back the fields of a row *)

(** The loading loop inverts the encoding of the fields that [run]
    writes: given a record whose fields are the name of a result,
    [true] or [false] for its flag and [strconv.Itoa] of its star count
    (negative counts included), it stores exactly that result under that
    name.  (The fields are taken as values here, not through their CSV
    encoding.) *)
Theorem written_fields_are_read_back (r : repoResult)
    (rest : list (list string)) (acc : gmap string repoResult) :
  in_int_range (stars r) = true →
  Atoi (Itoa (stars r)) = Some (stars r)
  ∧ row_result (name r) (if used r then "true" else "false") (stars r) = r
  ∧ load ([name r; if used r then "true" else "false"; Itoa (stars r)] :: rest) acc
    = load rest (<[name r := r]> acc).
Proof.
  intros Hrange. split; [by apply Atoi_Itoa|]. split.
  - destruct r as [n u z]. unfold row_result. simpl. by destruct u.
  - by apply (load_csv_row r rest acc).
Qed.

Lemma written_fields_are_read_back_witness :
  let r := {| name := "org/neg"; used := false; stars := -12 |} in
  in_int_range (stars r) = true
  ∧ load [["org/neg"; "false"; "-12"]] ∅ = Ok {[ "org/neg" := r ]}.
Proof.
  intros r. assert (Hrange : in_int_range (stars r) = true) by reflexivity.
  split; [exact Hrange|].
  destruct (written_fields_are_read_back r [] ∅ Hrange) as (_ & _ & Hload).
  exact Hload.
Defined.

(** ** More on the inspection of a repository *)

Section MoreFacts.

Variable env : Env.
Variable s : searchResult.

(** The loop over the files leaves only downloads and parses in the
    trace, and every parse is the parse of the bytes of a file of the
    code search, downloaded from the repository, read and closed without
    an error. *)
Lemma scan_files_events (repo : Repository) (files : list CodeResult)
    (used0 : bool) (st : State) (u : bool) (st' : State) :
  scan_files env s repo files used0 st = (u, st') →
  ∃ evs,
    trace st' = trace st ++ evs
    ∧ Forall (λ e, is_file_event e = true) evs
    ∧ (∀ path res, In (EvParse (FullName repo) path res) evs →
         ∃ file t reader bb,
           In file files ∧ path = Path file ∧
           DownloadContents env t (OwnerLogin repo) (RepoName repo) path
             = Some reader ∧
           contents reader = Some bb ∧ close_ok reader = true ∧
           modfile_Parse env bb = res).
Proof.
  revert used0 st. induction files as [|file rest IH]; intros used0 st Hrun.
  - simpl in Hrun. injection Hrun as <- <-. exists []. rewrite app_nil_r.
    split_and!; [done|done|]. by intros path res [].
  - rewrite scan_files_cons in Hrun. cbn zeta in Hrun.
    destruct (DownloadContents _ _ _ _ _) as [reader|] eqn:Hdown;
      [destruct (contents reader) as [bb|] eqn:Hread;
       [destruct (close_ok reader) eqn:Hclose; cbn [negb] in Hrun;
        [destruct (modfile_Parse env bb) as [f|] eqn:Hparse|]|]|];
      apply IH in Hrun as (evs & Htr & Hall & Hprov);
      cbn [clock trace] in Htr.
    1, 2:
      (exists (EvDownloadContents (FullName repo) (Path file) ::
               EvParse (FullName repo) (Path file) (modfile_Parse env bb) :: evs);
       rewrite Hparse; rewrite Htr, <- !app_assoc;
       split_and!; [done|by repeat constructor|];
       intros path res [Hin|[Hin|Hin]]; [done| |];
       [injection Hin as <- <-;
        exists file, (clock st), reader, bb; split_and!; auto; by left
       |destruct (Hprov path res Hin) as (file' & t & rd & bb' & Hf & Hrest);
        exists file', t, rd, bb'; split; [by right|done]]).
    all:
      (exists (EvDownloadContents (FullName repo) (Path file) :: evs);
       rewrite Htr, <- app_assoc;
       split_and!; [done|by constructor|];
       intros path res [Hin|Hin]; [done|];
       destruct (Hprov path res Hin) as (file' & t & rd & bb' & Hf & Hrest);
       exists file', t, rd, bb'; split; [by right|done]).
Qed.

Lemma scan_repository_sound (repo : Repository) (st : State)
    (r : repoResult) (st' : State) :
  scan_repository env s repo st = (Some r, st') →
  used r = true →
  ∃ files file t reader bb f require,
    Search_Code env (clock st) (code_query s repo) = Some files ∧
    In file files ∧
    DownloadContents env t (OwnerLogin repo) (RepoName repo) (Path file)
      = Some reader ∧
    contents reader = Some bb ∧ close_ok reader = true ∧
    modfile_Parse env bb = Some f ∧
    In require (Requires f) ∧
    ModPath require = packageName s ∧ Indirect require = false.
Proof.
  rewrite scan_repository_eq. cbn zeta.
  destruct (Search_Code _ _ _) as [files|]; [|done].
  destruct (scan_files _ _ _ _ _ _) as [u st2] eqn:Hscan.
  intros [= <- <-] Hused. cbn [used] in Hused. subst u.
  pose proof Hscan as Hscan'.
  apply scan_files_spec in Hscan as (evs & Htr & _ & _ & _ & Hu).
  apply scan_files_events in Hscan' as (evs' & Htr' & _ & Hprov).
  rewrite Htr in Htr'. apply app_inv_head in Htr' as <-.
  destruct (proj1 Hu eq_refl) as [?|(path & f & require & Hin & Hreq & Hp & Hi)];
    [done|].
  destruct (Hprov path _ Hin) as (file & t & reader & bb & Hf & -> & Hd & Hc & Hcl & Hparse).
  exists files, file, t, reader, bb, f, require. split_and!; done.
Qed.

(** Induction over the run of a page scan: the empty page, the two
    returns on a context that is done, a repository that is passed over
    (filtered out or cached), a repository whose code search fails, and
    a repository that is inspected and stored. *)
Lemma page_scan_ind
    (P : list Repository → gmap string repoResult → State →
         gmap string repoResult → option error → State → Prop) :
  (∀ results st, P [] results st results None st) →
  (∀ repo rest results st,
     ctx_Err env (clock st) = Some Canceled →
     P (repo :: rest) results st results None (tick st)) →
  (∀ repo rest results st,
     ctx_Err env (clock st) = Some DeadlineExceeded →
     P (repo :: rest) results st results
       (Some (ErrContext DeadlineExceeded)) (tick st)) →
  (∀ repo rest results st res err st',
     ctx_Err env (clock st) = None →
     to_inspect s repo = false →
     P rest results (tick st) res err st' →
     P (repo :: rest) results st res err st') →
  (∀ repo rest results st st1 res err st',
     ctx_Err env (clock st) = None →
     to_inspect s repo = true →
     scan_repository env s repo (tick st) = (None, st1) →
     P rest results st1 res err st' →
     P (repo :: rest) results st res err st') →
  (∀ repo rest results st r st1 res err st',
     ctx_Err env (clock st) = None →
     to_inspect s repo = true →
     scan_repository env s repo (tick st) = (Some r, st1) →
     P rest (<[FullName repo := r]> results)
       {| clock := S (clock st1); trace := trace st1 ++ [EvSleep (searchDelay s)] |}
       res err st' →
     P (repo :: rest) results st res err st') →
  ∀ repos results st res err st',
    searchInRepositories_from env s repos results st = ((res, err), st') →
    P repos results st res err st'.
Proof.
  intros Hnil Hcancel Hdeadline Hpass Hfail Hstore repos.
  induction repos as [|repo rest IH]; intros results st res err st' Hrun.
  - simpl in Hrun. injection Hrun as <- <- <-. apply Hnil.
  - rewrite searchInRepositories_from_cons in Hrun. unfold to_inspect, eligible in *.
    destruct (ctx_Err env (clock st)) as [[]|] eqn:Hctx.
    + injection Hrun as <- <- <-. by apply Hcancel.
    + injection Hrun as <- <- <-. by apply Hdeadline.
    + destruct (Archived repo || Disabled repo || Fork repo) eqn:Hfilter.
      { apply Hpass; [done|by rewrite Hfilter|by apply IH]. }
      destruct (cache s !! FullName repo) eqn:Hcache.
      { apply Hpass; [done| |by apply IH].
        rewrite Hfilter, Hcache. cbn [negb andb]. by apply bool_decide_eq_false_2. }
      assert (Hinspect : negb (Archived repo || Disabled repo || Fork repo)
                         && bool_decide (cache s !! FullName repo = None) = true).
      { rewrite Hfilter, Hcache. cbn [negb andb]. by apply bool_decide_eq_true_2. }
      destruct (scan_repository env s repo (tick st)) as [[r|] st1] eqn:Hscan.
      * eapply Hstore; [done|done|exact Hscan|by apply IH].
      * eapply Hfail; [done|done|exact Hscan|by apply IH].
Qed.

End MoreFacts.

(** A repository is reported as using the package only when a manifest
    that the code search found in it was downloaded from it (by its
    owner and name), read and closed without an error, and parses to a
    file with a requirement of the package that is not indirect. *)
Theorem used_only_for_a_downloaded_manifest (env : Env) (s : searchResult)
    (repo : Repository) (st : State) (r : repoResult) (st' : State) :
  scan_repository env s repo st = (Some r, st') →
  used r = true →
  ∃ files file t reader bb f require,
    Search_Code env (clock st) (code_query s repo) = Some files ∧
    In file files ∧
    DownloadContents env t (OwnerLogin repo) (RepoName repo) (Path file)
      = Some reader ∧
    contents reader = Some bb ∧ close_ok reader = true ∧
    modfile_Parse env bb = Some f ∧
    In require (Requires f) ∧
    ModPath require = packageName s ∧ Indirect require = false.
Proof. apply scan_repository_sound. Qed.

Lemma used_only_for_a_downloaded_manifest_witness :
  let env := github None [repo1] 0 direct_manifest in
  let s := newSearchResult widget ∅ in
  ∃ r st',
    scan_repository env s repo1 st0 = (Some r, st') ∧ used r = true
    ∧ ∃ bb f require,
        modfile_Parse env bb = Some f ∧ In require (Requires f) ∧
        ModPath require = "acme/widget" ∧ Indirect require = false.
Proof.
  intros env s.
  destruct (scan_repository env s repo1 st0) as [[r|] st'] eqn:Hrun;
    [|apply (f_equal fst) in Hrun; vm_compute in Hrun; discriminate Hrun].
  assert (Hused : used r = true).
  { apply (f_equal (λ x, match x.1 with Some r => used r | None => false end))
      in Hrun. vm_compute in Hrun. by symmetry. }
  exists r, st'. split_and!; [reflexivity|exact Hused|].
  destruct (used_only_for_a_downloaded_manifest env s repo1 st0 r st' Hrun Hused)
    as (files & file & t & reader & bb & f & require & _ & _ & _ & _ & _ & Hp & Hrest).
  exists bb, f, require. split; [exact Hp | exact Hrest].
Defined.

(** ** More on the scan of a page *)

Lemma code_searches_app (evs1 evs2 : list Event) :
  code_searches (evs1 ++ evs2) = code_searches evs1 ++ code_searches evs2.
Proof.
  induction evs1 as [|e evs1 IH]; [done|]. destruct e; simpl; by rewrite IH.
Qed.

Lemma sleeps_app (evs1 evs2 : list Event) :
  sleeps (evs1 ++ evs2) = sleeps evs1 ++ sleeps evs2.
Proof.
  induction evs1 as [|e evs1 IH]; [done|]. destruct e; simpl; by rewrite IH.
Qed.

Lemma downloads_app (evs1 evs2 : list Event) :
  downloads (evs1 ++ evs2) = downloads evs1 ++ downloads evs2.
Proof.
  induction evs1 as [|e evs1 IH]; [done|]. destruct e; simpl; by rewrite IH.
Qed.

Lemma file_events_no_search_no_sleep (evs : list Event) :
  Forall (λ e, is_file_event e = true) evs →
  code_searches evs = [] ∧ sleeps evs = [].
Proof. induction 1 as [|e evs He _ [IH1 IH2]]; [done|]. by destruct e. Qed.

Lemma to_inspect_true (s : searchResult) (repo : Repository) :
  to_inspect s repo = true →
  Archived repo = false ∧ Disabled repo = false ∧ Fork repo = false ∧
  cache s !! FullName repo = None.
Proof.
  unfold to_inspect, eligible. intros [Hel Hc]%andb_true_iff.
  apply bool_decide_eq_true_1 in Hc.
  destruct (Archived repo), (Disabled repo), (Fork repo); done.
Qed.

Section PageScanFacts.

Variable env : Env.
Variable s : searchResult.

(** The trace of one inspection: the code search, then file events;
    nothing after a code search that fails. *)
Lemma scan_repository_events (repo : Repository) (st : State)
    (o : option repoResult) (st' : State) :
  scan_repository env s repo st = (o, st') →
  ∃ evs,
    trace st' = trace st ++ EvSearchCode (FullName repo) (code_query s repo) :: evs
    ∧ Forall (λ e, is_file_event e = true) evs
    ∧ Forall (λ e, ev_repo e = Some (FullName repo)) evs
    ∧ (o = None ↔ Search_Code env (clock st) (code_query s repo) = None)
    ∧ (o = None → evs = [])
    ∧ (∀ r, o = Some r → name r = FullName repo ∧ stars r = StargazersCount repo).
Proof.
  rewrite scan_repository_eq. cbn zeta.
  destruct (Search_Code _ _ _) as [files|].
  - destruct (scan_files _ _ _ _ _ _) as [u st2] eqn:Hscan. intros [= <- <-].
    pose proof Hscan as Hscan'.
    apply scan_files_events in Hscan as (evs & Htr & Hall & _).
    apply scan_files_spec in Hscan' as (evs' & Htr' & _ & Hall' & _).
    rewrite Htr in Htr'. apply app_inv_head in Htr' as <-.
    cbn [trace] in Htr. exists evs. rewrite Htr, <- app_assoc.
    split_and!; [done|done| |done|done|by intros r [= <-]].
    eapply Forall_impl; [exact Hall'|]. simpl. by intros e [He _].
  - intros [= <- <-]. exists []. split_and!; done.
Qed.

(** Whatever the scan of a page inspects or stores belongs to a
    repository of the page that it had to inspect. *)
Lemma page_scan_eligible (repos : list Repository)
    (results : gmap string repoResult) (st : State)
    (res : gmap string repoResult) (err : option error) (st' : State) :
  searchInRepositories_from env s repos results st = ((res, err), st') →
  ∃ evs,
    trace st' = trace st ++ evs
    ∧ Forall (λ e, ∀ k, ev_repo e = Some k →
                ∃ repo, In repo repos ∧ FullName repo = k ∧
                        to_inspect s repo = true) evs
    ∧ (∀ k r, res !! k = Some r →
         results !! k = Some r ∨
         ∃ repo, In repo repos ∧ FullName repo = k ∧ to_inspect s repo = true ∧
                 name r = k ∧ stars r = StargazersCount repo).
Proof.
  revert repos results st res err st'. apply page_scan_ind.
  - intros results st. exists []. rewrite app_nil_r. split_and!; [done|done|by left].
  - intros repo rest results st _. exists []. rewrite app_nil_r.
    split_and!; [done|done|by left].
  - intros repo rest results st _. exists []. rewrite app_nil_r.
    split_and!; [done|done|by left].
  - intros repo rest results st res err st' _ _ (evs & Htr & Hall & Hent).
    exists evs. split_and!; [done| |].
    + eapply Forall_impl; [exact Hall|]. simpl.
      intros e He k Hk. destruct (He k Hk) as (r0 & Hin & Hrest).
      exists r0. split; [by right|done].
    + intros k r Hk. destruct (Hent k r Hk) as [H|(r0 & Hin & Hrest)]; [by left|].
      right. exists r0. split; [by right|done].
  - intros repo rest results st st1 res err st' _ Hins Hscan (evs & Htr & Hall & Hent).
    apply scan_repository_events in Hscan as (evs1 & Htr1 & _ & Hrepo & _).
    cbn [trace tick] in Htr1.
    exists ((EvSearchCode (FullName repo) (code_query s repo) :: evs1) ++ evs).
    split_and!.
    + rewrite Htr, Htr1. by rewrite <- app_assoc.
    + apply Forall_app. split.
      * constructor; [intros k [= <-]; exists repo; split; [by left|done]|].
        eapply Forall_impl; [exact Hrepo|]. simpl. intros e He k Hk.
        exists repo. split; [by left|]. split; [congruence|done].
      * eapply Forall_impl; [exact Hall|]. simpl.
        intros e He k Hk. destruct (He k Hk) as (r0 & Hin & Hrest).
        exists r0. split; [by right|done].
    + intros k r Hk. destruct (Hent k r Hk) as [H|(r0 & Hin & Hrest)]; [by left|].
      right. exists r0. split; [by right|done].
  - intros repo rest results st r0 st1 res err st' _ Hins Hscan
      (evs & Htr & Hall & Hent).
    apply scan_repository_events in Hscan as (evs1 & Htr1 & _ & Hrepo & _ & _ & Hr0).
    destruct (Hr0 r0 eq_refl) as [Hname Hstars].
    cbn [trace tick] in Htr1, Htr.
    exists ((EvSearchCode (FullName repo) (code_query s repo) :: evs1) ++
            EvSleep (searchDelay s) :: evs).
    split_and!.
    + rewrite Htr, Htr1. by rewrite <- !app_assoc.
    + apply Forall_app. split.
      * constructor; [intros k [= <-]; exists repo; split; [by left|done]|].
        eapply Forall_impl; [exact Hrepo|]. simpl. intros e He k Hk.
        exists repo. split; [by left|]. split; [congruence|done].
      * constructor; [done|]. eapply Forall_impl; [exact Hall|]. simpl.
        intros e He k Hk. destruct (He k Hk) as (r1 & Hin & Hrest).
        exists r1. split; [by right|done].
    + intros k r Hk. destruct (Hent k r Hk) as [H|(r1 & Hin & Hrest)].
      * destruct (decide (FullName repo = k)) as [<-|Hne].
        -- rewrite lookup_insert_eq in H. injection H as <-.
           right. exists repo. split_and!; [by left|done|done|done|done].
        -- rewrite lookup_insert_ne in H by done. by left.
      * right. exists r1. split; [by right|done].
Qed.

(** The code searches of a page scan are those of the repositories to
    inspect, in the order of the page: all of them while the context
    lasts, the first ones otherwise. *)
Lemma page_scan_inspections (repos : list Repository)
    (results : gmap string repoResult) (st : State)
    (res : gmap string repoResult) (err : option error) (st' : State) :
  searchInRepositories_from env s repos results st = ((res, err), st') →
  ∃ evs,
    trace st' = trace st ++ evs
    ∧ code_searches evs `prefix_of` map FullName (List.filter (to_inspect s) repos)
    ∧ (ctx_end env = None →
       code_searches evs = map FullName (List.filter (to_inspect s) repos)).
Proof.
  revert repos results st res err st'. apply page_scan_ind.
  - intros results st. exists []. rewrite app_nil_r. split_and!; done.
  - intros repo rest results st Hctx. exists []. rewrite app_nil_r.
    split_and!; [done|apply prefix_nil|].
    intros Hnever. by rewrite ctx_Err_never in Hctx.
  - intros repo rest results st Hctx. exists []. rewrite app_nil_r.
    split_and!; [done|apply prefix_nil|].
    intros Hnever. by rewrite ctx_Err_never in Hctx.
  - intros repo rest results st res err st' _ Hins (evs & Htr & Hpre & Hall).
    exists evs. cbn [List.filter]. rewrite Hins. by split_and!.
  - intros repo rest results st st1 res err st' _ Hins Hscan (evs & Htr & Hpre & Hall).
    apply scan_repository_events in Hscan as (evs1 & Htr1 & _ & _ & _ & Hnil & _).
    rewrite (Hnil eq_refl) in Htr1. cbn [trace tick] in Htr1.
    exists (EvSearchCode (FullName repo) (code_query s repo) :: evs).
    cbn [List.filter]. rewrite Hins. cbn [map code_searches]. split_and!.
    + rewrite Htr, Htr1. by rewrite <- app_assoc.
    + by apply prefix_cons.
    + intros Hnever. by rewrite Hall.
  - intros repo rest results st r0 st1 res err st' _ Hins Hscan
      (evs & Htr & Hpre & Hall).
    apply scan_repository_events in Hscan as (evs1 & Htr1 & Hfile & _).
    apply file_events_no_search_no_sleep in Hfile as [Hcs _].
    cbn [trace tick] in Htr1, Htr.
    exists ((EvSearchCode (FullName repo) (code_query s repo) :: evs1) ++
            EvSleep (searchDelay s) :: evs).
    cbn [List.filter]. rewrite Hins. rewrite code_searches_app.
    cbn [map code_searches]. rewrite Hcs. cbn [app]. split_and!.
    + rewrite Htr, Htr1. by rewrite <- !app_assoc.
    + by apply prefix_cons.
    + intros Hnever. by rewrite Hall.
Qed.

(** The scan sleeps once after each repository whose code search
    succeeds, for the delay between repositories, and at no other
    time. *)
Lemma page_scan_sleeps (repos : list Repository)
    (results : gmap string repoResult) (st : State)
    (res : gmap string repoResult) (err : option error) (st' : State) :
  searchInRepositories_from env s repos results st = ((res, err), st') →
  ∃ evs,
    trace st' = trace st ++ evs
    ∧ Forall (λ d, d = searchDelay s) (sleeps evs)
    ∧ (length (sleeps evs) <= length (code_searches evs))%nat
    ∧ (size res <= size results + length (sleeps evs))%nat
    ∧ ((∀ t q, is_Some (Search_Code env t q)) →
       length (sleeps evs) = length (code_searches evs))
    ∧ ((∀ t q, Search_Code env t q = None) →
       sleeps evs = [] ∧ downloads evs = [] ∧ res = results).
Proof.
  revert repos results st res err st'. apply page_scan_ind.
  - intros results st. exists []. rewrite app_nil_r. simpl.
    split_and!; [done|done|lia|lia|done|done].
  - intros repo rest results st _. exists []. rewrite app_nil_r. simpl.
    split_and!; [done|done|lia|lia|done|done].
  - intros repo rest results st _. exists []. rewrite app_nil_r. simpl.
    split_and!; [done|done|lia|lia|done|done].
  - intros repo rest results st res err st' _ _ H. exact H.
  - intros repo rest results st st1 res err st' _ _ Hscan
      (evs & Htr & Hdur & Hle & Hsize & Hup & Hdown).
    apply scan_repository_events in Hscan as (evs1 & Htr1 & _ & _ & Hnone & Hnil & _).
    rewrite (Hnil eq_refl) in Htr1. cbn [trace tick] in Htr1.
    exists (EvSearchCode (FullName repo) (code_query s repo) :: evs).
    cbn [sleeps code_searches downloads length]. split_and!.
    + rewrite Htr, Htr1. by rewrite <- app_assoc.
    + done.
    + lia.
    + done.
    + intros Hsome. destruct (Hsome (clock (tick st)) (code_query s repo)) as [x Hx].
      rewrite (proj1 Hnone eq_refl) in Hx. done.
    + done.
  - intros repo rest results st r0 st1 res err st' _ _ Hscan
      (evs & Htr & Hdur & Hle & Hsize & Hup & Hdown).
    apply scan_repository_events in Hscan as (evs1 & Htr1 & Hfile & _ & Hnone & _).
    apply file_events_no_search_no_sleep in Hfile as [Hcs Hsl].
    cbn [trace tick clock] in Htr1, Htr.
    exists ((EvSearchCode (FullName repo) (code_query s repo) :: evs1) ++
            EvSleep (searchDelay s) :: evs).
    rewrite sleeps_app, code_searches_app.
    cbn [sleeps code_searches]. rewrite Hcs, Hsl. cbn [app length].
    split_and!.
    + rewrite Htr, Htr1. by rewrite <- !app_assoc.
    + by constructor.
    + lia.
    + rewrite map_size_insert in Hsize.
      destruct (results !! FullName repo); simpl in Hsize; lia.
    + intros Hsome. by rewrite (Hup Hsome).
    + intros Hdownall. rewrite Hdownall in Hnone.
      destruct Hnone as [_ Hnone]. by specialize (Hnone eq_refl).
Qed.

End PageScanFacts.

(** The scan of a page inspects and stores nothing of a repository that
    is archived, disabled, a fork, or in the cache: every result it
    returns, and every code search, download and parse it makes, belongs
    to a repository of the page that is none of these, and a result
    carries the name and the star count of that repository. *)
Theorem page_scan_touches_only_repositories_to_inspect (env : Env)
    (s : searchResult) (repos : list Repository) (st : State)
    (res : gmap string repoResult) (err : option error) (st' : State) :
  searchInRepositories env s repos st = ((res, err), st') →
  (∀ k r, res !! k = Some r →
     ∃ repo, In repo repos ∧ FullName repo = k ∧
             Archived repo = false ∧ Disabled repo = false ∧ Fork repo = false ∧
             cache s !! k = None ∧
             name r = k ∧ stars r = StargazersCount repo)
  ∧ ∃ evs,
      trace st' = trace st ++ evs
      ∧ Forall (λ e, ∀ k, ev_repo e = Some k →
                  ∃ repo, In repo repos ∧ FullName repo = k ∧
                          Archived repo = false ∧ Disabled repo = false ∧
                          Fork repo = false ∧ cache s !! k = None) evs.
Proof.
  intros Hrun. apply page_scan_eligible in Hrun as (evs & Htr & Hall & Hent).
  split.
  - intros k r Hk. destruct (Hent k r Hk) as [H|(repo & Hin & <- & Hins & Hn & Hs)].
    + by rewrite lookup_empty in H.
    + destruct (to_inspect_true s repo Hins) as (Ha & Hd & Hf & Hc).
      exists repo. split_and!; done.
  - exists evs. split; [done|]. eapply Forall_impl; [exact Hall|]. simpl.
    intros e He k Hk. destruct (He k Hk) as (repo & Hin & <- & Hins).
    destruct (to_inspect_true s repo Hins) as (Ha & Hd & Hf & Hc).
    exists repo. split_and!; done.
Qed.

Lemma page_scan_touches_only_repositories_to_inspect_witness :
  let env := github None [repo_old; repo1] 0 direct_manifest in
  let s := newSearchResult widget ∅ in
  ∃ res st',
    searchInRepositories env s [repo_old; repo1] st0 = ((res, None), st')
    ∧ res !! "org/old" = None
    ∧ Forall (λ e, ev_repo e ≠ Some "org/old") (trace st').
Proof.
  intros env s.
  destruct (searchInRepositories env s [repo_old; repo1] st0)
    as [[res err] st'] eqn:Hrun.
  assert (Herr : err = None).
  { apply (f_equal (λ x, x.1.2)) in Hrun. vm_compute in Hrun. by symmetry. }
  subst err. exists res, st'. split; [reflexivity|].
  destruct (page_scan_touches_only_repositories_to_inspect env s _ st0 res None st'
              Hrun) as (Hent & evs & Htr & Hall).
  assert (Hold : ∀ repo, In repo [repo_old; repo1] → FullName repo = "org/old" →
                         Archived repo = false → False).
  { intros repo [<-|[<-|[]]] Hname Harch; discriminate. }
  split.
  - destruct (res !! "org/old") as [r|] eqn:Hk; [|reflexivity].
    destruct (Hent _ r Hk) as (repo & Hin & Hname & Harch & _).
    destruct (Hold repo Hin Hname Harch).
  - rewrite Htr. eapply Forall_impl; [exact Hall|]. simpl.
    intros e He Hk. destruct (He _ Hk) as (repo & Hin & Hname & Harch & _).
    exact (Hold repo Hin Hname Harch).
Defined.

(** The scan of a page makes its code searches for the repositories to
    inspect, one each, in the order of the page; while the context lasts
    it makes all of them, otherwise the first ones. *)
Theorem page_scan_inspects_in_page_order (env : Env) (s : searchResult)
    (repos : list Repository) (st : State)
    (res : gmap string repoResult) (err : option error) (st' : State) :
  searchInRepositories env s repos st = ((res, err), st') →
  ∃ evs,
    trace st' = trace st ++ evs
    ∧ code_searches evs `prefix_of` map FullName (List.filter (to_inspect s) repos)
    ∧ (ctx_end env = None →
       code_searches evs = map FullName (List.filter (to_inspect s) repos)
       ∧ err = None).
Proof.
  intros Hrun. pose proof Hrun as Hrun'.
  apply page_scan_inspections in Hrun as (evs & Htr & Hpre & Hall).
  exists evs. split_and!; [done|done|]. intros Hnever. split; [by apply Hall|].
  by eapply searchInRepositories_no_error.
Qed.

Lemma page_scan_inspects_in_page_order_witness :
  let env := github None [repo2; repo_old; repo1] 0 direct_manifest in
  let s := newSearchResult widget ∅ in
  ∃ res st',
    searchInRepositories env s [repo2; repo_old; repo1] st0 = ((res, None), st')
    ∧ code_searches (trace st') = ["org/repo2"; "org/repo1"].
Proof.
  intros env s.
  destruct (searchInRepositories env s [repo2; repo_old; repo1] st0)
    as [[res err] st'] eqn:Hrun.
  destruct (page_scan_inspects_in_page_order env s _ st0 res err st' Hrun)
    as (evs & Htr & _ & Hall).
  destruct (Hall eq_refl) as [Hcs ->].
  exists res, st'. split; [reflexivity|]. rewrite Htr. exact Hcs.
Defined.

(** The scan of a page sleeps for the delay between repositories, and
    for no other duration; it sleeps at most once per code search, and
    exactly once per code search when none of them fails; and it returns
    at most as many results as it has slept. *)
Theorem page_scan_sleeps_once_per_inspection (env : Env) (s : searchResult)
    (repos : list Repository) (st : State)
    (res : gmap string repoResult) (err : option error) (st' : State) :
  searchInRepositories env s repos st = ((res, err), st') →
  ∃ evs,
    trace st' = trace st ++ evs
    ∧ Forall (λ d, d = searchDelay s) (sleeps evs)
    ∧ (length (sleeps evs) <= length (code_searches evs))%nat
    ∧ (size res <= length (sleeps evs))%nat
    ∧ ((∀ t q, is_Some (Search_Code env t q)) →
       length (sleeps evs) = length (code_searches evs)).
Proof.
  intros Hrun.
  apply page_scan_sleeps in Hrun as (evs & Htr & Hdur & Hle & Hsize & Hup & _).
  exists evs. rewrite map_size_empty in Hsize. split_and!; done.
Qed.

Lemma page_scan_sleeps_once_per_inspection_witness :
  let env := github None [repo1; repo_old; repo2] 0 direct_manifest in
  let s := newSearchResult widget ∅ in
  ∃ res st',
    searchInRepositories env s [repo1; repo_old; repo2] st0 = ((res, None), st')
    ∧ sleeps (trace st') = [7 * second; 7 * second]
    ∧ (size res <= 2)%nat.
Proof.
  intros env s.
  destruct (searchInRepositories env s [repo1; repo_old; repo2] st0)
    as [[res err] st'] eqn:Hrun.
  assert (Herr : err = None).
  { apply (f_equal (λ x, x.1.2)) in Hrun. vm_compute in Hrun. by symmetry. }
  assert (Hsl : sleeps (trace st') = [7 * second; 7 * second]).
  { apply (f_equal (λ x, sleeps (trace x.2))) in Hrun. vm_compute in Hrun.
    by symmetry. }
  subst err. exists res, st'. split_and!; [reflexivity|exact Hsl|].
  destruct (page_scan_sleeps_once_per_inspection env s _ st0 res None st' Hrun)
    as (evs & Htr & _ & _ & Hsize & _).
  rewrite Htr in Hsl. simpl in Hsl. rewrite Hsl in Hsize. exact Hsize.
Defined.

(** While the code search is down, the scan of a page stores nothing,
    downloads nothing and never sleeps: it goes from one failed code
    search to the next without the delay between repositories. *)
Theorem failed_code_searches_are_not_throttled (env : Env) (s : searchResult)
    (repos : list Repository) (st : State)
    (res : gmap string repoResult) (err : option error) (st' : State) :
  (∀ t q, Search_Code env t q = None) →
  searchInRepositories env s repos st = ((res, err), st') →
  res = ∅
  ∧ ∃ evs,
      trace st' = trace st ++ evs
      ∧ sleeps evs = [] ∧ downloads evs = []
      ∧ (ctx_end env = None →
         code_searches evs = map FullName (List.filter (to_inspect s) repos)).
Proof.
  intros Hdown Hrun. pose proof Hrun as Hrun'.
  apply page_scan_sleeps in Hrun as (evs & Htr & _ & _ & _ & _ & Hnone).
  apply page_scan_inspections in Hrun' as (evs' & Htr' & _ & Hall).
  rewrite Htr in Htr'. apply app_inv_head in Htr' as <-.
  destruct (Hnone Hdown) as (Hsl & Hdl & Hres).
  split; [done|]. exists evs. split_and!; done.
Qed.

Lemma failed_code_searches_are_not_throttled_witness :
  let env := github_code_search_down None [repo1; repo2] 0 in
  let s := newSearchResult widget ∅ in
  ∃ st',
    searchInRepositories env s [repo1; repo2] st0 = ((∅, None), st')
    ∧ sleeps (trace st') = []
    ∧ code_searches (trace st') = ["org/repo1"; "org/repo2"].
Proof.
  intros env s.
  destruct (searchInRepositories env s [repo1; repo2] st0)
    as [[res err] st'] eqn:Hrun.
  destruct (failed_code_searches_are_not_throttled env s _ st0 res err st'
              (λ _ _, eq_refl) Hrun) as (-> & evs & Htr & Hsl & _ & Hcs).
  assert (Herr : err = None).
  { apply (f_equal (λ x, x.1.2)) in Hrun. vm_compute in Hrun. by symmetry. }
  subst err. exists st'. rewrite Htr. simpl.
  split_and!; [reflexivity|exact Hsl|exact (Hcs eq_refl)].
Defined.

(** ** More on the paginated search and on the run *)

Lemma ctx_Err_Some_inv (env : Env) (t : nat) (c : ctx_error) :
  ctx_Err env t = Some c → ∃ t0, ctx_end env = Some (t0, c) ∧ (t0 <= t)%nat.
Proof.
  unfold ctx_Err. destruct (ctx_end env) as [[t0 c0]|]; [|done].
  destruct (t0 <=? t)%nat eqn:Hle; [|done]. intros [= <-].
  exists t0. split; [done|]. by apply Nat.leb_le.
Qed.

Section SearchFacts.

Variable env : Env.
Variable s : searchResult.

(** [Search] returns in three ways only. *)
Lemma Search_returns (fuel : nat) (query : string) (page : Z)
    (results : gmap string repoResult) (st : State)
    (res : gmap string repoResult) (err : option error) (st' : State) :
  Search env s fuel query page results st = (Some (res, err), st') →
  (∃ t0, (t0 < clock st')%nat ∧
         ((err = None ∧ ctx_end env = Some (t0, Canceled)) ∨
          (err = Some (ErrContext DeadlineExceeded) ∧
           ctx_end env = Some (t0, DeadlineExceeded))))
  ∨ (err = Some ErrSearchRepositories ∧
     ∃ t p, Search_Repositories env t query p = None).
Proof.
  revert page results st.
  induction fuel as [|fuel IH]; intros page results st Hrun; [done|].
  rewrite Search_S in Hrun.
  destruct (ctx_Err env (clock st)) as [[]|] eqn:Hctx.
  - injection Hrun as <- <- <-. left.
    apply ctx_Err_Some_inv in Hctx as (t0 & Hend & Hle).
    exists t0. split; [simpl; lia|]. by left.
  - injection Hrun as <- <- <-. left.
    apply ctx_Err_Some_inv in Hctx as (t0 & Hend & Hle).
    exists t0. split; [simpl; lia|]. by right.
  - destruct (Search_Repositories _ _ _ _) as [[repos NextPage]|] eqn:Hfetch.
    2:{ injection Hrun as <- <- <-. right. split; [done|]. eauto. }
    destruct (searchInRepositories _ _ _ _) as [[rsr [e|]] st2];
      [|destruct (NextPage =? 0)]; by apply IH in Hrun.
Qed.

(** [Search] never drops a repository from the results it accumulates. *)
Lemma Search_keeps_keys (fuel : nat) (query : string) (page : Z)
    (results : gmap string repoResult) (st : State)
    (res : gmap string repoResult) (err : option error) (st' : State) :
  Search env s fuel query page results st = (Some (res, err), st') →
  ∀ k, is_Some (results !! k) → is_Some (res !! k).
Proof.
  revert page results st.
  induction fuel as [|fuel IH]; intros page results st Hrun k Hk; [done|].
  rewrite Search_S in Hrun.
  destruct (ctx_Err env (clock st)) as [[]|].
  - by injection Hrun as <- <- <-.
  - by injection Hrun as <- <- <-.
  - destruct (Search_Repositories _ _ _ _) as [[repos NextPage]|].
    2:{ by injection Hrun as <- <- <-. }
    assert (Hmerge : ∀ rsr : gmap string repoResult,
              is_Some (range_update (map_to_list rsr) results !! k)).
    { intros rsr.
      rewrite (range_update_ranges_over rsr) by (unfold ranges_over; done).
      apply lookup_union_is_Some. by right. }
    destruct (searchInRepositories _ _ _ _) as [[rsr [e|]] st2];
      [|destruct (NextPage =? 0)]; eapply IH; eauto.
Qed.

(** The pages that [Search] asks for: always with its query; the page it
    was started with, or a page that an answer of the repository search
    has announced as the next one. *)
Lemma Search_pages (fuel : nat) (query : string) (page : Z)
    (results : gmap string repoResult) (st : State)
    (o : option (gmap string repoResult * option error)) (st' : State) :
  Search env s fuel query page results st = (o, st') →
  ∃ evs,
    trace st' = trace st ++ evs
    ∧ Forall (λ qp, qp.1 = query ∧
                (qp.2 = page ∨
                 (qp.2 ≠ 0 ∧
                  ∃ t p0 repos,
                    Search_Repositories env t query p0 = Some (repos, qp.2))))
        (search_calls evs).
Proof.
  revert page results st.
  induction fuel as [|fuel IH]; intros page results st Hrun.
  - simpl in Hrun. injection Hrun as <- <-. exists []. by rewrite app_nil_r.
  - rewrite Search_S in Hrun.
    destruct (ctx_Err env (clock st)) as [[]|].
    + injection Hrun as <- <-. exists []. by rewrite app_nil_r.
    + injection Hrun as <- <-. exists []. by rewrite app_nil_r.
    + destruct (Search_Repositories _ _ _ _) as [[repos NextPage]|] eqn:Hfetch.
      2:{ injection Hrun as <- <-. exists [EvSearchRepositories query page].
          split; [done|]. constructor; [split; [done|by left]|done]. }
      destruct (searchInRepositories _ _ _ _) as [[rsr err0] st2] eqn:Hscan.
      apply searchInRepositories_from_spec in Hscan as (evs1 & Htr1 & _ & Hall1 & _).
      cbn [trace after_fetch] in Htr1.
      assert (Hcalls1 : search_calls evs1 = []).
      { apply search_calls_scan_events. eapply Forall_impl; [exact Hall1|].
        simpl. by intros e [He _]. }
      destruct err0 as [err0|]; [|destruct (NextPage =? 0) eqn:Hnext];
        apply IH in Hrun as (evs2 & Htr2 & Hall2); cbn [trace] in Htr2.
      * exists ((EvSearchRepositories query page :: evs1) ++
                EvLogScanError err0 :: evs2).
        split; [rewrite Htr2, Htr1; by rewrite <- !app_assoc|].
        rewrite search_calls_app. cbn [search_calls]. rewrite Hcalls1.
        constructor; [split; [done|by left]|done].
      * exists ((EvSearchRepositories query page :: evs1) ++ evs2).
        split; [rewrite Htr2, Htr1; by rewrite <- !app_assoc|].
        rewrite search_calls_app. cbn [search_calls]. rewrite Hcalls1.
        constructor; [split; [done|by left]|done].
      * exists ((EvSearchRepositories query page :: evs1) ++
                EvSleep (paginationDelay s) :: evs2).
        split; [rewrite Htr2, Htr1; by rewrite <- !app_assoc|].
        rewrite search_calls_app. cbn [search_calls]. rewrite Hcalls1.
        constructor; [split; [done|by left]|].
        eapply Forall_impl; [exact Hall2|]. simpl.
        intros [q p] [Hq [Hp|Hp]]; (split; [done|]); [|by right].
        simpl in Hp. subst p. right. split; [by apply Z.eqb_neq|]. eauto.
Qed.

End SearchFacts.

(** [Search] returns only when the context has ended or a repository
    search has failed: without an error exactly when it has found the
    context cancelled, with the error of the context when it has found
    the deadline exceeded, and with the search error otherwise.  It does
    not return because the pages are exhausted. *)
Theorem Search_returns_only_on_context_end_or_failed_fetch (env : Env)
    (s : searchResult) (fuel : nat) (query : string) (page : Z)
    (results : gmap string repoResult) (st : State)
    (res : gmap string repoResult) (err : option error) (st' : State) :
  Search env s fuel query page results st = (Some (res, err), st') →
  (err = None ∧
   ∃ t0, ctx_end env = Some (t0, Canceled) ∧ (t0 < clock st')%nat)
  ∨ (err = Some (ErrContext DeadlineExceeded) ∧
     ∃ t0, ctx_end env = Some (t0, DeadlineExceeded) ∧ (t0 < clock st')%nat)
  ∨ (err = Some ErrSearchRepositories ∧
     ∃ t p, Search_Repositories env t query p = None).
Proof.
  intros Hrun.
  destruct (Search_returns env s _ _ _ _ _ _ _ _ Hrun)
    as [(t0 & Hlt & [[-> Hend]|[-> Hend]])|[-> Hfetch]].
  - left. eauto.
  - right. left. eauto.
  - right. right. eauto.
Qed.

Lemma Search_returns_only_on_context_end_or_failed_fetch_witness :
  let env := github (Some (8%nat, Canceled)) [repo1; repo2] 0 direct_manifest in
  let s := newSearchResult widget ∅ in
  ∃ res st',
    Search env s 5 search_query 0 ∅ st0 = (Some (res, None), st')
    ∧ ∃ t0, ctx_end env = Some (t0, Canceled) ∧ (t0 < clock st')%nat.
Proof.
  intros env s.
  destruct (Search env s 5 search_query 0 ∅ st0) as [[[res err]|] st'] eqn:Hrun;
    [|apply (f_equal fst) in Hrun; vm_compute in Hrun; discriminate Hrun].
  assert (Herr : err = None).
  { apply (f_equal (λ x, match x.1 with Some (_, e) => e | None => None end))
      in Hrun. vm_compute in Hrun. by symmetry. }
  subst err. exists res, st'. split; [reflexivity|].
  destruct (Search_returns_only_on_context_end_or_failed_fetch env s 5 search_query
              0 ∅ st0 res None st' Hrun) as [[_ H]|[[H _]|[H _]]];
    [exact H|discriminate H|discriminate H].
Defined.

(** The mapping that [Search] returns contains every repository of the
    results it has accumulated, and besides these only repositories
    outside the cache, each stored under its own name. *)
Theorem Search_result_extends_accumulated_results (env : Env) (s : searchResult)
    (fuel : nat) (query : string) (page : Z)
    (results : gmap string repoResult) (st : State)
    (res : gmap string repoResult) (err : option error) (st' : State) :
  Search env s fuel query page results st = (Some (res, err), st') →
  (∀ k, is_Some (results !! k) → is_Some (res !! k))
  ∧ (∀ k r, res !! k = Some r →
       results !! k = Some r ∨ (cache s !! k = None ∧ name r = k)).
Proof.
  intros Hrun. split; [by eapply Search_keeps_keys|].
  intros k r Hk. apply Search_spec in Hrun as (_ & _ & _ & Hent).
  destruct (Hent res err k r eq_refl Hk) as [H|(Hc & repo & st1 & st1' & <- & Hscan)];
    [by left|right].
  split; [done|].
  by apply scan_repository_spec in Hscan as (_ & _ & _ & _ & Hn & _).
Qed.

Lemma Search_result_extends_accumulated_results_witness :
  let env := github (Some (8%nat, Canceled)) [repo1; repo2] 0 direct_manifest in
  let cached := {| name := "org/repo1"; used := false; stars := 4900 |} in
  let s := newSearchResult widget {[ "org/repo1" := cached ]} in
  ∃ res st',
    Search env s 5 search_query 0 ∅ st0 = (Some (res, None), st')
    ∧ res !! "org/repo1" = None.
Proof.
  intros env cached s.
  destruct (Search env s 5 search_query 0 ∅ st0) as [[[res err]|] st'] eqn:Hrun;
    [|apply (f_equal fst) in Hrun; vm_compute in Hrun; discriminate Hrun].
  assert (Herr : err = None).
  { apply (f_equal (λ x, match x.1 with Some (_, e) => e | None => None end))
      in Hrun. vm_compute in Hrun. by symmetry. }
  subst err. exists res, st'. split; [reflexivity|].
  destruct (Search_result_extends_accumulated_results env s 5 search_query 0 ∅ st0
              res None st' Hrun) as [_ Hent].
  destruct (res !! "org/repo1") as [r|] eqn:Hk; [|reflexivity].
  destruct (Hent _ r Hk) as [Hempty|[Hc _]].
  - by rewrite lookup_empty in Hempty.
  - discriminate Hc.
Defined.

(** [Search] asks the repository search for pages with its own query
    only, and only for the page it was started with or for a page that
    an answer of the repository search has announced as the next one
    (which is never page 0). *)
Theorem Search_fetches_only_announced_pages (env : Env) (s : searchResult)
    (fuel : nat) (query : string) (page : Z)
    (results : gmap string repoResult) (st : State)
    (o : option (gmap string repoResult * option error)) (st' : State) :
  Search env s fuel query page results st = (o, st') →
  ∃ evs,
    trace st' = trace st ++ evs
    ∧ Forall (λ qp, qp.1 = query ∧
                (qp.2 = page ∨
                 (qp.2 ≠ 0 ∧
                  ∃ t p0 repos,
                    Search_Repositories env t query p0 = Some (repos, qp.2))))
        (search_calls evs).
Proof. apply Search_pages. Qed.

Lemma Search_fetches_only_announced_pages_witness :
  let env := github (Some (6%nat, Canceled)) [repo_old] 2 direct_manifest in
  let s := newSearchResult widget ∅ in
  ∃ o st',
    Search env s 4 search_query 0 ∅ st0 = (o, st')
    ∧ search_calls (trace st') = [(search_query, 0); (search_query, 2)]
    ∧ Forall (λ qp, qp.1 = search_query ∧ (qp.2 = 0 ∨ qp.2 ≠ 0))
        (search_calls (trace st')).
Proof.
  intros env s.
  destruct (Search env s 4 search_query 0 ∅ st0) as [o st'] eqn:Hrun.
  assert (Hcalls : search_calls (trace st') = [(search_query, 0); (search_query, 2)]).
  { apply (f_equal (λ x, search_calls (trace x.2))) in Hrun.
    vm_compute in Hrun. by symmetry. }
  exists o, st'. split_and!; [reflexivity|exact Hcalls|].
  destruct (Search_fetches_only_announced_pages env s 4 search_query 0 ∅ st0 o st'
              Hrun) as (evs & Htr & Hall).
  rewrite Htr. simpl. eapply Forall_impl; [exact Hall|]. simpl.
  intros qp [Hq [Hp|[Hp _]]]; (split; [exact Hq|]); [by left|by right].
Defined.

(** [run] reaches the merge, and so the rewriting of the cache file,
    only after the context has been cancelled: when the context lasts or
    its deadline passes, or when a repository search fails, no merged
    mapping comes out of a run. *)
Theorem run_merges_only_after_cancellation (env : Env) (fuel : nat)
    (pkg : string) (records : list (list string))
    (merged : gmap string repoResult) (st st' : State) :
  run env fuel pkg records st = (Some (Ok merged), st') →
  ∃ t0, ctx_end env = Some (t0, Canceled) ∧ (t0 < clock st')%nat.
Proof.
  unfold run. destruct (load records ∅) as [M| |]; [|done|done].
  unfold bind. destruct (Search _ _ _ _ _ _ _) as [[[new [err|]]|] st1] eqn:Hs;
    [done| |done].
  intros [= <- <-].
  destruct (Search_returns env _ _ _ _ _ _ _ _ _ Hs)
    as [(t0 & Hlt & [[_ Hend]|[[=] _]])|[[=] _]].
  eauto.
Qed.

Lemma run_merges_only_after_cancellation_witness :
  let env := github (Some (8%nat, Canceled)) [repo1; repo2] 0 direct_manifest in
  ∃ merged st',
    run env 5 widget [["org/repo1"; "false"; "4900"]] st0 = (Some (Ok merged), st')
    ∧ ∃ t0, ctx_end env = Some (t0, Canceled) ∧ (t0 < clock st')%nat.
Proof.
  intros env.
  destruct (run env 5 widget [["org/repo1"; "false"; "4900"]] st0)
    as [[[merged| |]|] st'] eqn:Hrun;
    try (apply (f_equal fst) in Hrun; vm_compute in Hrun; discriminate Hrun).
  exists merged, st'. split; [reflexivity|].
  exact (run_merges_only_after_cancellation env 5 widget _ merged st0 st' Hrun).
Defined.

(** The mapping that comes out of a run is the loaded cache together
    with the mapping that [Search] has returned, which holds only
    repositories outside the cache: the two share no key, so the merge
    loses nothing, does not depend on which side is merged into which,
    and the sizes add up; and every result is stored under its own
    name. *)
Theorem run_adds_new_repositories_to_cache (env : Env) (fuel : nat)
    (pkg : string) (records : list (list string))
    (merged : gmap string repoResult) (st st' : State) :
  run env fuel pkg records st = (Some (Ok merged), st') →
  ∃ M new,
    load records ∅ = Ok M
    ∧ Search env (newSearchResult pkg M) fuel search_query 0 ∅ st
      = (Some (new, None), st')
    ∧ M ##ₘ new
    ∧ merged = M ∪ new
    ∧ merged = new ∪ M
    ∧ size merged = (size M + size new)%nat
    ∧ names_are_keys merged.
Proof.
  intros Hrun. pose proof (run_names_are_keys _ _ _ _ _ _ _ Hrun) as Hnames.
  unfold run in Hrun. destruct (load records ∅) as [M| |] eqn:Hload; [|done|done].
  unfold bind in Hrun.
  destruct (Search _ _ _ _ _ _ _) as [[[new [err|]]|] st1] eqn:Hs; [done| |done].
  injection Hrun as <- <-.
  rewrite (range_merge_ranges_over new) in * by (unfold ranges_over; done).
  assert (Hdisj : M ##ₘ new).
  { apply map_disjoint_spec. intros k x y HM Hnew.
    pose proof Hs as Hs'. apply Search_spec in Hs' as (_ & _ & _ & Hent).
    destruct (Hent new None k y eq_refl Hnew) as [H|[Hc _]].
    - by rewrite lookup_empty in H.
    - simpl in Hc. congruence. }
  exists M, new. split_and!; [done|done|done|done| | |done].
  - by apply map_union_comm.
  - by apply map_size_disj_union.
Qed.

Lemma run_adds_new_repositories_to_cache_witness :
  let env := github (Some (8%nat, Canceled)) [repo1; repo2] 0 direct_manifest in
  ∃ merged st',
    run env 5 widget [["org/repo1"; "false"; "4900"]] st0 = (Some (Ok merged), st')
    ∧ names_are_keys merged
    ∧ (1 <= size merged)%nat.
Proof.
  intros env.
  destruct (run env 5 widget [["org/repo1"; "false"; "4900"]] st0)
    as [[[merged| |]|] st'] eqn:Hrun;
    try (apply (f_equal fst) in Hrun; vm_compute in Hrun; discriminate Hrun).
  exists merged, st'. split; [reflexivity|].
  destruct (run_adds_new_repositories_to_cache env 5 widget _ merged st0 st' Hrun)
    as (M & new & HM & _ & _ & _ & _ & Hsize & Hnames).
  split; [exact Hnames|].
  simpl in HM. injection HM as <-.
  rewrite Hsize, map_size_insert_None by apply lookup_empty. lia.
Defined.

(** What the scan of a page has stored is not lost when the search ends:
    when the scan returns without an error (also when a cancellation has
    cut it short), every repository of its result is in the mapping that
    [Search] returns afterwards, however it comes to return. *)
Theorem scanned_results_reach_the_search_result (env : Env) (s : searchResult)
    (fuel : nat) (query : string) (page : Z)
    (results : gmap string repoResult) (st : State)
    (repos : list Repository) (NextPage : Z)
    (rsr : gmap string repoResult) (st2 : State)
    (res : gmap string repoResult) (err : option error) (st' : State) :
  ctx_Err env (clock st) = None →
  Search_Repositories env (S (clock st)) query page = Some (repos, NextPage) →
  searchInRepositories env s repos (after_fetch st query page)
    = ((rsr, None), st2) →
  Search env s (S fuel) query page results st = (Some (res, err), st') →
  ∀ k, is_Some (rsr !! k) ∨ is_Some (results !! k) → is_Some (res !! k).
Proof.
  intros Hctx Hfetch Hscan Hrun k Hk.
  rewrite Search_S, Hctx, Hfetch, Hscan in Hrun.
  assert (Hmerge : is_Some (range_update (map_to_list rsr) results !! k)).
  { rewrite (range_update_ranges_over rsr) by (unfold ranges_over; done).
    by apply lookup_union_is_Some. }
  destruct (NextPage =? 0); eapply Search_keeps_keys; eauto.
Qed.

Lemma scanned_results_reach_the_search_result_witness :
  let env := github (Some (5%nat, Canceled)) [repo1; repo2] 0 direct_manifest in
  let s := newSearchResult widget ∅ in
  ∃ rsr st2 res st',
    searchInRepositories env s [repo1; repo2] (after_fetch st0 search_query 0)
      = ((rsr, None), st2)
    ∧ is_Some (rsr !! "org/repo1")
    ∧ Search env s 3 search_query 0 ∅ st0 = (Some (res, None), st')
    ∧ is_Some (res !! "org/repo1").
Proof.
  intros env s.
  assert (Hk : is_Some ((searchInRepositories env s [repo1; repo2]
                           (after_fetch st0 search_query 0)).1.1 !! "org/repo1")).
  { vm_compute. eauto. }
  destruct (searchInRepositories env s [repo1; repo2]
              (after_fetch st0 search_query 0)) as [[rsr e] st2] eqn:Hscan.
  simpl in Hk.
  assert (He : e = None).
  { apply (f_equal (λ x, x.1.2)) in Hscan. vm_compute in Hscan. by symmetry. }
  subst e.
  destruct (Search env s 3 search_query 0 ∅ st0) as [[[res err]|] st'] eqn:Hrun;
    [|apply (f_equal fst) in Hrun; vm_compute in Hrun; discriminate Hrun].
  assert (Herr : err = None).
  { apply (f_equal (λ x, match x.1 with Some (_, e) => e | None => None end))
      in Hrun. vm_compute in Hrun. by symmetry. }
  subst err. exists rsr, st2, res, st'.
  split_and!; [reflexivity|exact Hk|reflexivity|].
  apply (scanned_results_reach_the_search_result env s 2 search_query 0 ∅ st0
           [repo1; repo2] 0 rsr st2 res None st' eq_refl eq_refl Hscan Hrun).
  left. exact Hk.
Defined.

(** [run] writes one row per result, each of three fields with [true]
    or [false] as the second one: a file that the loading loop cannot
    index is never written. *)
Theorem persisted_rows_have_three_fields (results : gmap string repoResult)
    (rows : list (list string)) :
  persisted results rows →
  length rows = size results
  ∧ Forall (λ row, length row = 3%nat ∧
                   (row !! 1%nat = Some "true" ∨ row !! 1%nat = Some "false")) rows
  ∧ csv_accepted rows
  ∧ load rows ∅ ≠ Panic.
Proof.
  intros (entries & sorted & Hent & [Hperm _] & ->).
  unfold ranges_over in Hent. unfold MapToSlice in Hperm.
  assert (Hrows : Forall (λ row, length row = 3%nat ∧
                    (row !! 1%nat = Some "true" ∨ row !! 1%nat = Some "false"))
                    (map csv_row sorted)).
  { apply Forall_forall. intros row Hin.
    apply list_elem_of_In, in_map_iff in Hin as (r & <- & _).
    unfold csv_row. split; [done|]. simpl. destruct (used r); auto. }
  split_and!.
  - rewrite length_map, <- Hperm, length_map, Hent. apply length_map_to_list.
  - done.
  - destruct (map csv_row sorted) as [|r0 rest] eqn:Heq; [done|].
    split.
    + apply Forall_cons in Hrows as [[-> _] _]. lia.
    + pose proof Hrows as Hrows'. apply Forall_cons in Hrows' as [[-> _] _].
      eapply Forall_impl; [exact Hrows|]. simpl. by intros row [-> _].
  - apply load_no_panic. eapply Forall_impl; [exact Hrows|]. simpl.
    intros row [-> _]. lia.
Qed.

Lemma persisted_rows_have_three_fields_witness :
  let ra := {| name := "org/a"; used := true; stars := 5000 |} in
  let rb := {| name := "org/b"; used := false; stars := 7000 |} in
  let results : gmap string repoResult := <["org/a" := ra]> (<["org/b" := rb]> ∅) in
  ∃ rows, persisted results rows ∧ length rows = 2%nat ∧ load rows ∅ ≠ Panic.
Proof.
  intros ra rb results.
  destruct (persisted_exists results) as [rows Hrows].
  exists rows. split; [exact Hrows|].
  destruct (persisted_rows_have_three_fields results rows Hrows)
    as (Hlen & _ & _ & Hload).
  split; [|exact Hload]. rewrite Hlen. reflexivity.
Defined.
